(** * IntervalTree: an augmented, height-balanced tree of closed intervals

    Shallow embedding of [Data_Structures/IntervalTree/IntervalTree.h]
    instantiated at its default template argument [T = int]; the one
    function whose behaviour depends on more of [T] than its order,
    [MaxHighOverlapping], is also embedded over an arbitrary scalar type
    (section [Template]) and read at [T = double].

    - [int] values are integers of [Z]; the tree only compares and copies
      them, so no wrap-around arises.  [std::numeric_limits<int>::min()] is
      [INT_MIN].
    - [std::shared_ptr<Node<T>>] is [NodePtr]: either [nullptr] or a node
      owning its two children.  Ownership in the source is tree shaped (no
      node is reachable along two paths), so in-place mutation of a node is
      the construction of the updated node.
    - [std::shared_ptr<T> data] is [option Z]: the absent payload or the
      payload value.
    - [size_t size] is an integer modulo [2^64].
    - [int Height(node)] is an integer of [Z]: the height of a tree that
      fits in memory is far below [INT_MAX].
    - Dereferencing a null pointer is undefined behaviour; the functions
      that can do so return [option], with [None] standing for it. *)

From Stdlib Require Import ZArith List Bool Lia String Ascii.
From Stdlib Require Import Permutation DecimalString.
From Stdlib Require QArith.
Import ListNotations.

#[local] Open Scope Z_scope.

(** ** Data model *)

Record Interval : Type := mkInterval { low : Z; high : Z }.

Inductive NodePtr : Type :=
| nullptr : NodePtr
| Node (interval : Interval) (max : Z) (left right : NodePtr)
       (data : option Z) : NodePtr.

(** [Node(Interval<T> i, std::shared_ptr<T> d)]: the constructor of a
    fresh leaf. *)
Definition make_shared (i : Interval) (d : option Z) : NodePtr :=
  Node i (high i) nullptr nullptr d.

Definition SIZE_MOD : Z := 2 ^ 64.
Definition INT_MIN : Z := - 2 ^ 31.
Definition INT_MAX : Z := 2 ^ 31 - 1.

Record IntervalTree : Type := mkTree { Root : NodePtr; size : Z }.

(** [IntervalTree()] *)
Definition empty_tree : IntervalTree := {| Root := nullptr; size := 0 |}.

(** An entry of a query result: [std::pair<Interval<T>, std::shared_ptr<T>>]. *)
Definition Entry : Type := (Interval * option Z)%type.

(** A small error monad for code that may dereference a null pointer. *)
Definition bind {A B : Type} (m : option A) (k : A -> option B) : option B :=
  match m with
  | Some a => k a
  | None => None
  end.

Notation "x <- m ;; k" := (bind m (fun x => k))
  (at level 61, m at next level, right associativity).

(** ** Augmentation maintenance, height and balance *)

(** [node->max = std::max(node->max, child->max)] when [child] is present. *)
Definition max_with_child (m : Z) (child : NodePtr) : Z :=
  match child with
  | nullptr => m
  | Node _ cm _ _ _ => Z.max m cm
  end.

Definition UpdateMax (node : NodePtr) : NodePtr :=
  match node with
  | nullptr => nullptr
  | Node iv _ l r d =>
      let m := high iv in
      let m := max_with_child m l in
      let m := max_with_child m r in
      Node iv m l r d
  end.

Fixpoint Height (node : NodePtr) : Z :=
  match node with
  | nullptr => 0
  | Node _ _ l r _ => 1 + Z.max (Height l) (Height r)
  end.

Definition GetBalance (node : NodePtr) : Z :=
  match node with
  | nullptr => 0
  | Node _ _ l r _ => Height l - Height r
  end.

(** ** Rotations

    [newRoot = node->left; node->left = newRoot->right; ...]: reading
    [newRoot->right] when [node->left] is null is a null dereference. *)
Definition RotateRight (node : NodePtr) : option NodePtr :=
  match node with
  | nullptr => None
  | Node iv m l r d =>
      match l with
      | nullptr => None
      | Node liv lm ll lr ld =>
          let node' := UpdateMax (Node iv m lr r d) in
          Some (UpdateMax (Node liv lm ll node' ld))
      end
  end.

Definition RotateLeft (node : NodePtr) : option NodePtr :=
  match node with
  | nullptr => None
  | Node iv m l r d =>
      match r with
      | nullptr => None
      | Node riv rm rl rr rd =>
          let node' := UpdateMax (Node iv m l rl d) in
          Some (UpdateMax (Node riv rm node' rr rd))
      end
  end.

(** ** Insertion *)

(** The rebalancing dispatch that closes the private [Insert] (from
    [int balance = GetBalance(node)] to [return node]). *)
Definition Insert_rebalance (node : NodePtr) (i : Interval) : option NodePtr :=
  let balance := GetBalance node in
  if balance >? 1 then
    match node with
    | Node iv m (Node liv lm ll lr ld as l) r d =>
        if low i <? low liv then RotateRight node
        else
          l' <- RotateLeft l ;;
          RotateRight (Node iv m l' r d)
    | _ => None
    end
  else if balance <? -1 then
    match node with
    | Node iv m l (Node riv rm rl rr rd as r) d =>
        if low i >? low riv then RotateLeft node
        else
          r' <- RotateRight r ;;
          RotateLeft (Node iv m l r' d)
    | _ => None
    end
  else Some node.

(** Private [Insert(node, i, data)]. *)
Fixpoint Insert_node (node : NodePtr) (i : Interval) (data : option Z)
  : option NodePtr :=
  match node with
  | nullptr => Some (make_shared i data)
  | Node iv m l r d =>
      node1 <- (if low i <? low iv
                then l' <- Insert_node l i data ;; Some (Node iv m l' r d)
                else r' <- Insert_node r i data ;; Some (Node iv m l r' d)) ;;
      Insert_rebalance (UpdateMax node1) i
  end.

(** ** Removal *)

(** [while (node && node->left) node = node->left;] *)
Fixpoint FindMin (node : NodePtr) : NodePtr :=
  match node with
  | nullptr => nullptr
  | Node _ _ l _ _ =>
      match l with
      | nullptr => node
      | Node _ _ _ _ _ => FindMin l
      end
  end.

(** Private [Remove(node, i)].  [minNode->interval] is a dereference, so a
    null [minNode] is [None]. *)
Fixpoint Remove_node (node : NodePtr) (i : Interval) : option NodePtr :=
  match node with
  | nullptr => Some nullptr
  | Node iv m l r d =>
      if low i <? low iv then
        l' <- Remove_node l i ;;
        Some (UpdateMax (Node iv m l' r d))
      else if low i >? low iv then
        r' <- Remove_node r i ;;
        Some (UpdateMax (Node iv m l r' d))
      else
        match l, r with
        | nullptr, _ => Some r
        | _, nullptr => Some l
        | _, _ =>
            match FindMin r with
            | nullptr => None
            | Node miv _ _ _ md =>
                r' <- Remove_node r miv ;;
                Some (UpdateMax (Node miv m l r' md))
            end
        end
  end.

(** ** Queries *)

Definition contains_value (value : Z) (iv : Interval) : bool :=
  (low iv <=? value) && (high iv >=? value).

Definition overlaps_range (lo hi : Z) (iv : Interval) : bool :=
  (low iv <=? hi) && (high iv >=? lo).

(** [node->left && node->left->max >= bound] *)
Definition left_may_reach (l : NodePtr) (bound : Z) : bool :=
  match l with
  | nullptr => false
  | Node _ lm _ _ _ => lm >=? bound
  end.

Fixpoint FindContaining (node : NodePtr) (value : Z) (result : list Entry)
  : list Entry :=
  match node with
  | nullptr => result
  | Node iv _ l r d =>
      let result :=
        if contains_value value iv then result ++ [(iv, d)] else result in
      let result :=
        if left_may_reach l value then FindContaining l value result
        else result in
      FindContaining r value result
  end.

Fixpoint FindOverlapping (node : NodePtr) (lo hi : Z) (result : list Entry)
  : list Entry :=
  match node with
  | nullptr => result
  | Node iv _ l r d =>
      let result :=
        if overlaps_range lo hi iv then result ++ [(iv, d)] else result in
      let result :=
        if left_may_reach l lo then FindOverlapping l lo hi result
        else result in
      FindOverlapping r lo hi result
  end.

Fixpoint MaxHighOverlapping_node (node : NodePtr) (lo hi : Z) (maxValue : Z)
  : Z :=
  match node with
  | nullptr => maxValue
  | Node iv _ l r _ =>
      let maxValue :=
        if overlaps_range lo hi iv then Z.max maxValue (high iv)
        else maxValue in
      let maxValue :=
        if left_may_reach l lo then MaxHighOverlapping_node l lo hi maxValue
        else maxValue in
      MaxHighOverlapping_node r lo hi maxValue
  end.

(** [FindByMinMax] has no embedding.  The class declares
    [FindByMinMax(T min, T max)] and
    [FindByMinMax(node, T min, T max, result&)], without default arguments;
    the body of the second calls [FindByMinMax(node->left, min, max)] and
    [FindByMinMax(node->right, min, max)], three arguments that no
    declaration accepts.  The member function is therefore ill-formed as
    soon as it is instantiated, and a program that calls it does not
    compile: there is no behaviour to translate. *)

Fixpoint Contains_node (node : NodePtr) (value : Z) : bool :=
  match node with
  | nullptr => false
  | Node iv _ l r _ =>
      if contains_value value iv then true
      else if left_may_reach l value then Contains_node l value
      else Contains_node r value
  end.

Fixpoint Overlaps_node (node : NodePtr) (lo hi : Z) : bool :=
  match node with
  | nullptr => false
  | Node iv _ l r _ =>
      if overlaps_range lo hi iv then true
      else if left_may_reach l lo then Overlaps_node l lo hi
      else Overlaps_node r lo hi
  end.

(** [oss << value] for an [int]: decimal digits, [-] for a negative one. *)
Definition show_int (z : Z) : string := NilZero.string_of_int (Z.to_int z).

Fixpoint ToString_node (node : NodePtr) (oss : string) : string :=
  match node with
  | nullptr => oss
  | Node iv _ l r _ =>
      let oss := ToString_node l oss in
      let oss :=
        (oss ++ "[" ++ show_int (low iv) ++ ", " ++ show_int (high iv) ++ "] ")%string in
      ToString_node r oss
  end.

(** ** The public interface *)

(** How a call of a public member function ends: it returns, it throws
    [std::invalid_argument] (the tree being as it was at the [throw]), or
    its behaviour is undefined. *)
Inductive Outcome : Type :=
| Returns (t : IntervalTree)
| Throws_invalid_argument (t : IntervalTree)
| Undefined_behaviour.

Definition Insert (t : IntervalTree) (i : Interval) (data : option Z)
  : Outcome :=
  if low i >? high i then Throws_invalid_argument t
  else
    match Insert_node (Root t) i data with
    | None => Undefined_behaviour
    | Some root => Returns {| Root := root; size := (size t + 1) mod SIZE_MOD |}
    end.

(** [Insert(T low, T high, data)] *)
Definition Insert_bounds (t : IntervalTree) (lo hi : Z) (data : option Z)
  : Outcome :=
  Insert t (mkInterval lo hi) data.

Definition Contains (t : IntervalTree) (value : Z) : bool :=
  Contains_node (Root t) value.

Definition Overlaps (t : IntervalTree) (lo hi : Z) : bool :=
  Overlaps_node (Root t) lo hi.

Definition Remove (t : IntervalTree) (i : Interval) : Outcome :=
  if Contains t (low i) then
    match Remove_node (Root t) i with
    | None => Undefined_behaviour
    | Some root => Returns {| Root := root; size := (size t - 1) mod SIZE_MOD |}
    end
  else Returns t.

Definition Update (t : IntervalTree) (oldInterval newInterval : Interval)
  (newData : option Z) : Outcome :=
  match Remove t oldInterval with
  | Returns t' => Insert t' newInterval newData
  | other => other
  end.

Definition Clear (t : IntervalTree) : IntervalTree :=
  {| Root := nullptr; size := 0 |}.

Definition Size (t : IntervalTree) : Z := size t.

Definition IsEmpty (t : IntervalTree) : bool :=
  match Root t with
  | nullptr => true
  | Node _ _ _ _ _ => false
  end.

Definition Containing (t : IntervalTree) (value : Z) : list Entry :=
  FindContaining (Root t) value [].

Definition Overlapping (t : IntervalTree) (lo hi : Z) : list Entry :=
  FindOverlapping (Root t) lo hi [].

Definition MaxHighOverlapping (t : IntervalTree) (lo hi : Z) : Z :=
  MaxHighOverlapping_node (Root t) lo hi INT_MIN.

Definition ToString (t : IntervalTree) : string :=
  ToString_node (Root t) EmptyString.

(** ** Sequences of public mutating calls *)

Inductive Op : Type :=
| OpInsert (i : Interval) (data : option Z)
| OpRemove (i : Interval)
| OpUpdate (oldInterval newInterval : Interval) (newData : option Z)
| OpClear.

Definition apply_op (t : IntervalTree) (op : Op) : Outcome :=
  match op with
  | OpInsert i data => Insert t i data
  | OpRemove i => Remove t i
  | OpUpdate o n data => Update t o n data
  | OpClear => Returns (Clear t)
  end.

(** The tree a caller holds once the call is over, if the call has a
    defined behaviour. *)
Definition state_after (o : Outcome) : option IntervalTree :=
  match o with
  | Returns t => Some t
  | Throws_invalid_argument t => Some t
  | Undefined_behaviour => None
  end.

(** A caller runs the calls one after the other, catching the exception of
    a rejected [Insert]; nothing is known after undefined behaviour. *)
Fixpoint run (ops : list Op) (t : IntervalTree) : option IntervalTree :=
  match ops with
  | [] => Some t
  | op :: rest =>
      match state_after (apply_op t op) with
      | Some t' => run rest t'
      | None => None
      end
  end.

(** ** Views of a tree used to state its properties *)

(** In-order listing of the nodes: left subtree, node, right subtree. *)
Fixpoint elements (node : NodePtr) : list Entry :=
  match node with
  | nullptr => []
  | Node iv _ l r d => elements l ++ (iv, d) :: elements r
  end.

(** Pre-order listing: node, left subtree, right subtree. *)
Fixpoint preorder (node : NodePtr) : list Entry :=
  match node with
  | nullptr => []
  | Node iv _ l r d => (iv, d) :: preorder l ++ preorder r
  end.

(** The number of nodes reachable from [node]. *)
Fixpoint count_nodes (node : NodePtr) : Z :=
  match node with
  | nullptr => 0
  | Node _ _ l r _ => 1 + count_nodes l + count_nodes r
  end.

(** [P] holds of every node reachable from [node]. *)
Fixpoint Forall_nodes (P : NodePtr -> Prop) (node : NodePtr) : Prop :=
  match node with
  | nullptr => True
  | Node _ _ l r _ => P node /\ Forall_nodes P l /\ Forall_nodes P r
  end.

Definition entry_low (e : Entry) : Z := low (fst e).
Definition entry_high (e : Entry) : Z := high (fst e).

(** The overlap predicate on an entry. *)
Definition overlapping_entry (lo hi : Z) (e : Entry) : bool :=
  overlaps_range lo hi (fst e).

(** The augmentation invariant at one node: [max] is the maximum of the
    node's own [high] and the [max] of each child that is present. *)
Definition local_max_ok (node : NodePtr) : Prop :=
  match node with
  | nullptr => True
  | Node iv m nullptr nullptr _ => m = high iv
  | Node iv m (Node _ lm _ _ _) nullptr _ => m = Z.max (high iv) lm
  | Node iv m nullptr (Node _ rm _ _ _) _ => m = Z.max (high iv) rm
  | Node iv m (Node _ lm _ _ _) (Node _ rm _ _ _) _ =>
      m = Z.max (high iv) (Z.max lm rm)
  end.

(** The largest of [h] and the [high] bounds of [es], recomputed by brute
    force. *)
Definition max_high_of (h : Z) (es : list Entry) : Z :=
  fold_right (fun e acc => Z.max (entry_high e) acc) h es.

(** [max] is the maximum [high] over the node's own interval and all its
    descendants. *)
Definition subtree_max_ok (node : NodePtr) : Prop :=
  match node with
  | nullptr => True
  | Node iv m l r _ => m = max_high_of (high iv) (elements l ++ elements r)
  end.

Definition AugOK (node : NodePtr) : Prop := Forall_nodes local_max_ok node.

(** What [max] is, for a tree that satisfies the invariant: an upper bound
    of every [high] below the node that one of them attains. *)
Definition max_bounds (node : NodePtr) : Prop :=
  match node with
  | nullptr => True
  | Node _ m _ _ _ =>
      (forall e, In e (elements node) -> entry_high e <= m) /\
      (exists e, In e (elements node) /\ entry_high e = m)
  end.

(** Non-decreasing lists of keys. *)
Fixpoint ascending (ks : list Z) : Prop :=
  match ks with
  | [] => True
  | k :: rest => Forall (fun k' => k <= k') rest /\ ascending rest
  end.

Definition lows (node : NodePtr) : list Z := map entry_low (elements node).

(** Search-tree ordering on [low], ties allowed on either side. *)
Definition ordered (node : NodePtr) : Prop := ascending (lows node).

(** The AVL balance condition at one node, and its decision procedure. *)
Definition balance_ok (node : NodePtr) : Prop :=
  -1 <= GetBalance node <= 1.

Definition balance_okb (node : NodePtr) : bool :=
  (-1 <=? GetBalance node) && (GetBalance node <=? 1).

Fixpoint forallb_nodes (p : NodePtr -> bool) (node : NodePtr) : bool :=
  match node with
  | nullptr => true
  | Node _ _ l r _ => p node && forallb_nodes p l && forallb_nodes p r
  end.

(** One interval as [ToString] prints it. *)
Definition render (e : Entry) : string :=
  ("[" ++ show_int (entry_low e) ++ ", " ++ show_int (entry_high e) ++ "] ")%string.

Fixpoint render_all (es : list Entry) : string :=
  match es with
  | [] => EmptyString
  | e :: rest => (render e ++ render_all rest)%string
  end.

(** Values an [int] can hold. *)
Definition int_range (z : Z) : Prop := INT_MIN <= z <= INT_MAX.

Definition interval_in_range (i : Interval) : Prop :=
  int_range (low i) /\ int_range (high i).

Definition op_in_range (op : Op) : Prop :=
  match op with
  | OpInsert i _ => interval_in_range i
  | OpRemove i => interval_in_range i
  | OpUpdate o n _ => interval_in_range o /\ interval_in_range n
  | OpClear => True
  end.

Definition entries_in_range (node : NodePtr) : Prop :=
  forall e, In e (elements node) -> interval_in_range (fst e).

(** The invariant that every public call maintains. *)
Definition Inv (t : IntervalTree) : Prop :=
  AugOK (Root t) /\ ordered (Root t).

(** [Insert(i, data)] of one entry, as an operation. *)
Definition insert_entry (e : Entry) : Op := OpInsert (fst e) (snd e).

(** The scenario of the documentation: four intervals without payload. *)
Definition scenario_entries : list Entry :=
  [ (mkInterval 1 3, None); (mkInterval 5 8, None);
    (mkInterval 2 6, None); (mkInterval 15 20, None) ].

Definition scenario_ops : list Op := map insert_entry scenario_entries.

(** [Interval::operator<] and [Interval::operator>]. *)
Definition Interval_lt (this other : Interval) : bool :=
  high this <? low other.

Definition Interval_gt (this other : Interval) : bool :=
  low this >? high other.

(** [low <= high], the intervals the public [Insert] accepts. *)
Definition valid_interval (i : Interval) : Prop := low i <= high i.

Definition entries_valid (node : NodePtr) : Prop :=
  forall e, In e (elements node) -> valid_interval (fst e).

(** Every node satisfies the AVL balance condition. *)
Definition balanced (node : NodePtr) : Prop := Forall_nodes balance_ok node.

(** The subtree [t'] that an insertion of [i] made one level higher than
    [t] kept the root of [t] and is higher on the side [i] was sent to. *)
Definition grew_toward (i : Interval) (t t' : NodePtr) : Prop :=
  match t, t' with
  | nullptr, _ => True
  | Node iv _ _ _ _, Node iv' _ l' r' _ =>
      iv' = iv /\
      (if low i <? low iv then Height l' = Height r' + 1
       else Height r' = Height l' + 1)
  | Node _ _ _ _ _, nullptr => False
  end.

(** The tree of the documented scenario. *)
Definition scenario_tree : IntervalTree :=
  Eval vm_compute in
    match run scenario_ops empty_tree with
    | Some t => t
    | None => empty_tree
    end.

(** ** [MaxHighOverlapping] over the template parameter

    The same source lines as [MaxHighOverlapping_node] and
    [MaxHighOverlapping] above, with the scalar type [T], its comparisons
    and [std::numeric_limits<T>::min()] left open. *)
Section Template.

Variable T : Type.
(** [a <= b] and [a < b] on [T] *)
Variable T_le : T -> T -> bool.
Variable T_lt : T -> T -> bool.
(** [std::numeric_limits<T>::min()] *)
Variable numeric_limits_min : T.

Record IntervalT : Type := mkIntervalT { lowT : T; highT : T }.

Inductive NodePtrT : Type :=
| nullptrT : NodePtrT
| NodeT (interval : IntervalT) (max : T) (left right : NodePtrT)
        (data : option T) : NodePtrT.

(** [Node(Interval<T> i, std::shared_ptr<T> d)], the node that the
    private [Insert] returns for a null [node]. *)
Definition make_sharedT (i : IntervalT) (d : option T) : NodePtrT :=
  NodeT i (highT i) nullptrT nullptrT d.

(** [a >= b] *)
Definition T_ge (a b : T) : bool := T_le b a.

(** [std::max(a, b)]: [(a < b) ? b : a] *)
Definition std_max (a b : T) : T := if T_lt a b then b else a.

Fixpoint MaxHighOverlappingT_node (node : NodePtrT) (lo hi : T)
  (maxValue : T) : T :=
  match node with
  | nullptrT => maxValue
  | NodeT iv _ l r _ =>
      let maxValue :=
        if T_le (lowT iv) hi && T_ge (highT iv) lo
        then std_max maxValue (highT iv)
        else maxValue in
      let maxValue :=
        match l with
        | nullptrT => maxValue
        | NodeT _ lm _ _ _ =>
            if T_ge lm lo then MaxHighOverlappingT_node l lo hi maxValue
            else maxValue
        end in
      MaxHighOverlappingT_node r lo hi maxValue
  end.

Definition MaxHighOverlappingT (root : NodePtrT) (lo hi : T) : T :=
  MaxHighOverlappingT_node root lo hi numeric_limits_min.

End Template.

Arguments nullptrT {T}.
Arguments NodeT {T}.
Arguments mkIntervalT {T}.
Arguments make_sharedT {T}.

(** The tree of the [int] instantiation, read in the open type. *)
Fixpoint as_template (node : NodePtr) : NodePtrT Z :=
  match node with
  | nullptr => nullptrT
  | Node iv m l r d =>
      NodeT (mkIntervalT (low iv) (high iv)) m
            (as_template l) (as_template r) d
  end.

(** [T = double].  A finite [double] is a rational number and [<], [<=]
    on finite doubles are the order of the rationals; the values below
    ([-10], [-5], [-1], [0], [1] and [2^-1022]) are doubles. *)
Definition double : Type := QArith_base.Q.

Definition double_le (a b : double) : bool := QArith_base.Qle_bool a b.
Definition double_lt (a b : double) : bool := negb (QArith_base.Qle_bool b a).

Definition double_of_int (z : Z) : double := QArith_base.Qmake z 1.

(** [std::numeric_limits<double>::min()], the smallest positive normal
    [double], [2^-1022] (about [2.2e-308]). *)
Definition DBL_MIN : double := QArith_base.Qmake 1 (2 ^ 1022).

(** [IntervalTree<double>::MaxHighOverlapping] on the tree of root
    [root]. *)
Definition MaxHighOverlapping_double (root : NodePtrT double)
  (lo hi : double) : double :=
  MaxHighOverlappingT double double_le double_lt DBL_MIN root lo hi.

#[global] Arguments UpdateMax : simpl never.
#[global] Arguments AugOK : simpl never.
#[global] Arguments ordered : simpl never.

(** ** Lists of keys and maxima *)

Lemma ascending_app (a b : list Z) :
  ascending (a ++ b) <->
  ascending a /\ ascending b /\ (forall x y, In x a -> In y b -> x <= y).
Proof.
  induction a as [|k a IH]; simpl.
  - intuition.
  - rewrite Forall_app, IH, !Forall_forall. split.
    + intros [[Ha Hb] [Hs [Hs' Hc]]].
      split; [split; assumption|]. split; [assumption|].
      intros x y [<-|Hx] Hy; auto.
    + intros [[Ha Hs] [Hs' Hc]].
      split; [split|split; [|split]]; auto.
Qed.

Lemma ascending_cons (k : Z) (ks : list Z) :
  ascending (k :: ks) <-> (forall y, In y ks -> k <= y) /\ ascending ks.
Proof. simpl. rewrite Forall_forall. tauto. Qed.

Lemma max_high_of_ge_base (h : Z) (es : list Entry) : h <= max_high_of h es.
Proof. induction es; simpl; lia. Qed.

Lemma max_high_of_ge_entry (h : Z) (es : list Entry) (e : Entry) :
  In e es -> entry_high e <= max_high_of h es.
Proof.
  induction es as [|x es IH]; simpl; [tauto|].
  intros [->|Hin]; [lia|]. specialize (IH Hin). lia.
Qed.

Lemma max_high_of_attained (h : Z) (es : list Entry) :
  max_high_of h es = h \/ exists e, In e es /\ entry_high e = max_high_of h es.
Proof.
  induction es as [|x es IH]; simpl; [now left|].
  destruct (Z.max_spec (entry_high x) (max_high_of h es)) as [[_ E]|[_ E]];
    rewrite E.
  - destruct IH as [IH|[e [Hin He]]]; [now left|].
    right. exists e. auto.
  - right. exists x. auto.
Qed.

Lemma max_high_of_unique (h m : Z) (es : list Entry) :
  h <= m ->
  (forall e, In e es -> entry_high e <= m) ->
  (m = h \/ exists e, In e es /\ entry_high e = m) ->
  max_high_of h es = m.
Proof.
  intros Hh Hub Hatt.
  assert (max_high_of h es <= m).
  { destruct (max_high_of_attained h es) as [E|[e [Hin E]]].
    - lia.
    - rewrite <- E. auto. }
  assert (m <= max_high_of h es).
  { destruct Hatt as [->|[e [Hin <-]]].
    - apply max_high_of_ge_base.
    - now apply max_high_of_ge_entry. }
  lia.
Qed.

Lemma max_high_of_max (h k : Z) (es : list Entry) :
  max_high_of (Z.max h k) es = Z.max k (max_high_of h es).
Proof. induction es; simpl; lia. Qed.

Lemma max_high_of_app (h : Z) (a b : list Entry) :
  max_high_of h (a ++ b) = max_high_of (max_high_of h b) a.
Proof. apply fold_right_app. Qed.

Lemma max_high_of_swap (h : Z) (a b : list Entry) :
  max_high_of (max_high_of h a) b = max_high_of (max_high_of h b) a.
Proof.
  induction a as [|x a IH]; simpl; [reflexivity|].
  rewrite <- IH, (Z.max_comm (entry_high x)). apply max_high_of_max.
Qed.

(** ** The option monad *)

Lemma bind_Some {A B : Type} (m : option A) (k : A -> option B) (b : B) :
  bind m k = Some b -> exists a, m = Some a /\ k a = Some b.
Proof. destruct m as [a|]; simpl; [eauto|discriminate]. Qed.

Ltac inv_bind H :=
  let x := fresh "x" in
  let E := fresh "E" in
  apply bind_Some in H; destruct H as [x [E H]].

Ltac inv_Some :=
  repeat match goal with
         | H : Some _ = Some _ |- _ => injection H as H; subst
         | H : None = Some _ |- _ => discriminate H
         end.

(** ** The augmentation invariant *)

Lemma local_max_ok_iff iv m l r d :
  local_max_ok (Node iv m l r d) <->
  m = max_with_child (max_with_child (high iv) l) r.
Proof. destruct l, r; simpl; split; intros ->; lia. Qed.

Lemma AugOK_node iv m l r d :
  AugOK (Node iv m l r d) <->
  m = max_with_child (max_with_child (high iv) l) r /\ AugOK l /\ AugOK r.
Proof.
  unfold AugOK. cbn [Forall_nodes]. rewrite local_max_ok_iff. tauto.
Qed.

Lemma UpdateMax_AugOK iv m l r d :
  AugOK l -> AugOK r -> AugOK (UpdateMax (Node iv m l r d)).
Proof. intros Hl Hr. unfold UpdateMax. apply AugOK_node. auto. Qed.

Lemma RotateRight_AugOK iv m l r d t :
  AugOK l -> AugOK r -> RotateRight (Node iv m l r d) = Some t -> AugOK t.
Proof.
  intros Hl Hr H. destruct l as [|liv lm ll lr ld]; simpl in H; inv_Some.
  apply AugOK_node in Hl. destruct Hl as [_ [Hll Hlr]].
  apply AugOK_node. split; [reflexivity|]. split; [assumption|].
  apply AugOK_node. auto.
Qed.

Lemma RotateLeft_AugOK iv m l r d t :
  AugOK l -> AugOK r -> RotateLeft (Node iv m l r d) = Some t -> AugOK t.
Proof.
  intros Hl Hr H. destruct r as [|riv rm rl rr rd]; simpl in H; inv_Some.
  apply AugOK_node in Hr. destruct Hr as [_ [Hrl Hrr]].
  apply AugOK_node. split; [reflexivity|]. split; [|assumption].
  apply AugOK_node. auto.
Qed.

Lemma Insert_rebalance_AugOK node i t :
  AugOK node -> Insert_rebalance node i = Some t -> AugOK t.
Proof.
  intros Hn H. unfold Insert_rebalance in H.
  destruct (GetBalance node >? 1).
  - destruct node as [|iv m [|liv lm ll lr ld] r d]; try discriminate.
    apply AugOK_node in Hn. destruct Hn as [_ [Hl Hr]].
    destruct (low i <? low liv).
    + exact (RotateRight_AugOK _ _ _ _ _ _ Hl Hr H).
    + inv_bind H. apply AugOK_node in Hl. destruct Hl as [_ [Hll Hlr]].
      refine (RotateRight_AugOK _ _ _ _ _ _ _ Hr H).
      exact (RotateLeft_AugOK _ _ _ _ _ _ Hll Hlr E).
  - destruct (GetBalance node <? -1); [|now inv_Some].
    destruct node as [|iv m l [|riv rm rl rr rd] d]; try discriminate.
    apply AugOK_node in Hn. destruct Hn as [_ [Hl Hr]].
    destruct (low i >? low riv).
    + exact (RotateLeft_AugOK _ _ _ _ _ _ Hl Hr H).
    + inv_bind H. apply AugOK_node in Hr. destruct Hr as [_ [Hrl Hrr]].
      refine (RotateLeft_AugOK _ _ _ _ _ _ Hl _ H).
      exact (RotateRight_AugOK _ _ _ _ _ _ Hrl Hrr E).
Qed.

Lemma make_shared_AugOK i d : AugOK (make_shared i d).
Proof. apply AugOK_node. simpl. repeat split. Qed.

Lemma Insert_node_AugOK node i d t :
  AugOK node -> Insert_node node i d = Some t -> AugOK t.
Proof.
  revert t. induction node as [|iv m l IHl r IHr dd]; intros t Hn H.
  - simpl in H. inv_Some. apply make_shared_AugOK.
  - apply AugOK_node in Hn. destruct Hn as [_ [Hl Hr]].
    simpl in H. inv_bind H.
    refine (Insert_rebalance_AugOK _ _ _ _ H).
    destruct (low i <? low iv); inv_bind E; inv_Some;
      apply UpdateMax_AugOK; eauto.
Qed.

Lemma FindMin_Node iv m l r d :
  exists miv mm ml mr md, FindMin (Node iv m l r d) = Node miv mm ml mr md.
Proof.
  revert iv m r d. induction l as [|liv lm ll IHl lr _ ld]; intros; simpl.
  - eauto 6.
  - apply IHl.
Qed.

Lemma Remove_node_AugOK node i t :
  AugOK node -> Remove_node node i = Some t -> AugOK t.
Proof.
  revert i t. induction node as [|iv m l IHl r IHr d]; intros i t Hn H.
  - simpl in H. now inv_Some.
  - apply AugOK_node in Hn. destruct Hn as [_ [Hl Hr]].
    simpl in H. destruct (low i <? low iv).
    { inv_bind H. inv_Some. apply UpdateMax_AugOK; eauto. }
    destruct (low i >? low iv).
    { inv_bind H. inv_Some. apply UpdateMax_AugOK; eauto. }
    destruct l as [|liv lm ll lr ld]; [now inv_Some|].
    destruct r as [|riv rm rl rr rd]; [now inv_Some|].
    destruct (FindMin (Node riv rm rl rr rd)) as [|miv mm ml mr md];
      [discriminate|].
    inv_bind H. inv_Some. apply UpdateMax_AugOK; eauto.
Qed.

(** [Remove] never dereferences a null pointer. *)
Lemma Remove_node_total node i : exists t, Remove_node node i = Some t.
Proof.
  revert i. induction node as [|iv m l IHl r IHr d]; intros i; simpl.
  - eauto.
  - destruct (low i <? low iv).
    { destruct (IHl i) as [l' ->]. simpl. eauto. }
    destruct (low i >? low iv).
    { destruct (IHr i) as [r' ->]. simpl. eauto. }
    destruct l as [|liv lm ll lr ld]; [eauto|].
    destruct r as [|riv rm rl rr rd]; [eauto|].
    destruct (FindMin_Node riv rm rl rr rd) as (miv & mm & ml & mr & md & ->).
    destruct (IHr miv) as [r' ->]. simpl. eauto.
Qed.

Lemma AugOK_max_bounds node : AugOK node -> max_bounds node.
Proof.
  induction node as [|iv m l IHl r IHr d]; intros H; [exact I|].
  apply AugOK_node in H. destruct H as [Hm [Hl Hr]].
  specialize (IHl Hl). specialize (IHr Hr).
  assert (Hself : In (iv, d) (elements (Node iv m l r d)))
    by (simpl; apply in_or_app; right; left; reflexivity).
  assert (Hinl : forall e, In e (elements l) -> In e (elements (Node iv m l r d)))
    by (intros; simpl; apply in_or_app; left; assumption).
  assert (Hinr : forall e, In e (elements r) -> In e (elements (Node iv m l r d)))
    by (intros; simpl; apply in_or_app; right; right; assumption).
  split.
  - intros e He. simpl in He. apply in_app_or in He.
    destruct He as [He|[<-|He]].
    + destruct l as [|liv lm ll lr ld]; [destruct He|].
      destruct IHl as [Hub _]. specialize (Hub e He).
      destruct r; simpl in Hm; lia.
    + unfold entry_high. simpl. destruct l, r; simpl in Hm; lia.
    + destruct r as [|riv rm rl rr rd]; [destruct He|].
      destruct IHr as [Hub _]. specialize (Hub e He).
      destruct l; simpl in Hm; lia.
  - assert (Hcases : m = high iv
                     \/ (exists e, In e (elements l) /\ entry_high e = m)
                     \/ (exists e, In e (elements r) /\ entry_high e = m)).
    { destruct l as [|liv lm ll lr ld], r as [|riv rm rl rr rd];
        simpl in Hm, IHl, IHr.
      - auto.
      - destruct IHr as [_ Hr'].
        destruct (Z.max_spec (high iv) rm) as [[_ E]|[_ E]];
          rewrite E in Hm; subst m; auto.
      - destruct IHl as [_ Hl'].
        destruct (Z.max_spec (high iv) lm) as [[_ E]|[_ E]];
          rewrite E in Hm; subst m; auto.
      - destruct IHl as [_ Hl'], IHr as [_ Hr'].
        destruct (Z.max_spec (Z.max (high iv) lm) rm) as [[_ E]|[_ E]];
          rewrite E in Hm; [subst m; auto|].
        destruct (Z.max_spec (high iv) lm) as [[_ E']|[_ E']];
          rewrite E' in Hm; subst m; auto. }
    destruct Hcases as [->|[[e [He E]]|[e [He E]]]].
    + exists (iv, d). auto.
    + exists e. auto.
    + exists e. auto.
Qed.

Lemma AugOK_subtree_max_ok node : AugOK node -> subtree_max_ok node.
Proof.
  intros H. destruct node as [|iv m l r d]; [exact I|].
  destruct (AugOK_max_bounds _ H) as [Hub [e [He Hatt]]].
  simpl. symmetry. apply max_high_of_unique.
  - apply (Hub (iv, d)). simpl. apply in_or_app. right. left. reflexivity.
  - intros x Hx. apply Hub. simpl.
    apply in_app_or in Hx. apply in_or_app. destruct Hx; [left|right; right]; auto.
  - simpl in He. apply in_app_or in He. destruct He as [He|[<-|He]].
    + right. exists e. split; [apply in_or_app; auto|assumption].
    + left. symmetry. exact Hatt.
    + right. exists e. split; [apply in_or_app; auto|assumption].
Qed.

Lemma Forall_nodes_impl (P Q : NodePtr -> Prop) node :
  (forall n, P n -> Q n) -> Forall_nodes P node -> Forall_nodes Q node.
Proof.
  intros HPQ. induction node as [|iv m l IHl r IHr d]; simpl; [auto|].
  intros [H [Hl Hr]]. auto.
Qed.

Lemma AugOK_Forall_nodes node : AugOK node -> Forall_nodes AugOK node.
Proof.
  induction node as [|iv m l IHl r IHr d]; intros H; [exact I|].
  simpl. split; [assumption|].
  apply AugOK_node in H. destruct H as [_ [Hl Hr]]. auto.
Qed.

(** ** What the mutations do to the stored entries *)

Lemma UpdateMax_elements node : elements (UpdateMax node) = elements node.
Proof. destruct node; reflexivity. Qed.

Lemma RotateRight_elements node t :
  RotateRight node = Some t -> elements t = elements node.
Proof.
  destruct node as [|iv m [|liv lm ll lr ld] r d]; simpl; intros H; inv_Some.
  rewrite UpdateMax_elements. cbn [elements]. rewrite UpdateMax_elements.
  cbn [elements]. now rewrite <- app_assoc.
Qed.

Lemma RotateLeft_elements node t :
  RotateLeft node = Some t -> elements t = elements node.
Proof.
  destruct node as [|iv m l [|riv rm rl rr rd] d]; simpl; intros H; inv_Some.
  rewrite UpdateMax_elements. cbn [elements]. rewrite UpdateMax_elements.
  cbn [elements]. now rewrite <- app_assoc.
Qed.

Lemma Insert_rebalance_elements node i t :
  Insert_rebalance node i = Some t -> elements t = elements node.
Proof.
  unfold Insert_rebalance. intros H.
  destruct (GetBalance node >? 1).
  - destruct node as [|iv m [|liv lm ll lr ld] r d]; try discriminate.
    destruct (low i <? low liv); [now apply RotateRight_elements|].
    inv_bind H. apply RotateRight_elements in H. apply RotateLeft_elements in E.
    rewrite H. simpl. now rewrite E.
  - destruct (GetBalance node <? -1); [|now inv_Some].
    destruct node as [|iv m l [|riv rm rl rr rd] d]; try discriminate.
    destruct (low i >? low riv); [now apply RotateLeft_elements|].
    inv_bind H. apply RotateLeft_elements in H. apply RotateRight_elements in E.
    rewrite H. simpl. now rewrite E.
Qed.

(** One step of the private [Insert]: the new entry joins the subtree it
    was sent to, and the rest is a matter of [max] and rotations. *)
Lemma Insert_node_step iv m l r d i data t :
  Insert_node (Node iv m l r d) i data = Some t ->
  (low i < low iv /\ exists l', Insert_node l i data = Some l' /\
     elements t = elements l' ++ (iv, d) :: elements r) \/
  (low iv <= low i /\ exists r', Insert_node r i data = Some r' /\
     elements t = elements l ++ (iv, d) :: elements r').
Proof.
  intros H. simpl in H. inv_bind H.
  apply Insert_rebalance_elements in H. rewrite UpdateMax_elements in H.
  destruct (Z.ltb_spec (low i) (low iv)) as [Hlt|Hge]; inv_bind E; inv_Some;
    [left|right];
    (split; [assumption|eauto]).
Qed.

Lemma Insert_node_perm node i data t :
  Insert_node node i data = Some t ->
  Permutation (elements t) ((i, data) :: elements node).
Proof.
  revert t. induction node as [|iv m l IHl r IHr d]; intros t H.
  - simpl in H. inv_Some. reflexivity.
  - apply Insert_node_step in H.
    destruct H as [[_ [l' [E ->]]]|[_ [r' [E ->]]]]; simpl.
    + rewrite (IHl _ E). reflexivity.
    + rewrite (IHr _ E), <- !Permutation_middle. apply perm_swap.
Qed.

Lemma ordered_node iv m l r d :
  ordered (Node iv m l r d) <->
  ordered l /\ ordered r /\
  (forall e, In e (elements l) -> entry_low e <= low iv) /\
  (forall e, In e (elements r) -> low iv <= entry_low e).
Proof.
  unfold ordered, lows. simpl elements. rewrite map_app. simpl map.
  rewrite ascending_app, ascending_cons. split.
  - intros [Hl [[Hr1 Hr] Hc]]. repeat split; auto.
    + intros e He. apply Hc; [now apply in_map|now left].
    + intros e He. apply Hr1. now apply in_map.
  - intros [Hl [Hr [Hc1 Hc2]]]. repeat split; auto.
    + intros y Hy. apply in_map_iff in Hy. destruct Hy as [e [<- He]]. auto.
    + intros x y Hx Hy. apply in_map_iff in Hx. destruct Hx as [e [<- He]].
      specialize (Hc1 e He). destruct Hy as [<-|Hy]; [assumption|].
      apply in_map_iff in Hy. destruct Hy as [e' [<- He']].
      specialize (Hc2 e' He'). lia.
Qed.

Lemma ordered_ext a b : elements a = elements b -> ordered a -> ordered b.
Proof. unfold ordered, lows. now intros ->. Qed.

Lemma Insert_node_ordered node i data t :
  ordered node -> Insert_node node i data = Some t -> ordered t.
Proof.
  revert t. induction node as [|iv m l IHl r IHr d]; intros t Ho H.
  - simpl in H. inv_Some. unfold ordered, lows. simpl. auto.
  - apply ordered_node in Ho. destruct Ho as [Hl [Hr [Hc1 Hc2]]].
    apply Insert_node_step in H.
    destruct H as [[Hlt [l' [E Et]]]|[Hle [r' [E Et]]]].
    + apply (ordered_ext (Node iv m l' r d)); [now rewrite Et|].
      apply ordered_node. repeat split; eauto.
      intros e He. apply (Permutation_in _ (Insert_node_perm _ _ _ _ E)) in He.
      destruct He as [<-|He]; [unfold entry_low; simpl; lia|auto].
    + apply (ordered_ext (Node iv m l r' d)); [now rewrite Et|].
      apply ordered_node. repeat split; eauto.
      intros e He. apply (Permutation_in _ (Insert_node_perm _ _ _ _ E)) in He.
      destruct He as [<-|He]; [unfold entry_low; simpl; lia|auto].
Qed.

(** [FindMin] yields a node of the subtree; in an ordered subtree no stored
    [low] is below the one it finds. *)
Lemma FindMin_In node miv mm ml mr md :
  FindMin node = Node miv mm ml mr md -> In (miv, md) (elements node).
Proof.
  induction node as [|iv m l IHl r _ d]; intros H; [discriminate|].
  simpl in H. simpl. apply in_or_app. destruct l as [|liv lm ll lr ld].
  - injection H as -> _ _ _ ->. right. now left.
  - left. auto.
Qed.

Lemma FindMin_least node miv mm ml mr md :
  ordered node -> FindMin node = Node miv mm ml mr md ->
  forall e, In e (elements node) -> low miv <= entry_low e.
Proof.
  induction node as [|iv m l IHl r _ d]; intros Ho H e He; [discriminate|].
  apply ordered_node in Ho. destruct Ho as [Hl [Hr [Hc1 Hc2]]].
  simpl in H. destruct l as [|liv lm ll lr ld].
  - injection H as -> _ _ _ ->. simpl in He.
    destruct He as [<-|He]; [unfold entry_low; simpl; lia|auto].
  - pose proof (FindMin_In _ _ _ _ _ _ H) as Hmin.
    specialize (Hc1 _ Hmin). unfold entry_low in Hc1. simpl in Hc1.
    change (elements (Node iv m (Node liv lm ll lr ld) r d))
      with (elements (Node liv lm ll lr ld) ++ (iv, d) :: elements r) in He.
    apply in_app_or in He. destruct He as [He|[<-|He]].
    + now apply IHl.
    + exact Hc1.
    + specialize (Hc2 _ He). lia.
Qed.

Lemma Remove_node_incl node i t :
  Remove_node node i = Some t -> incl (elements t) (elements node).
Proof.
  revert i t. induction node as [|iv m l IHl r IHr d]; intros i t H.
  - simpl in H. inv_Some. apply incl_refl.
  - cbn [Remove_node] in H. cbn [elements].
    destruct (low i <? low iv).
    { inv_bind H. inv_Some. rewrite UpdateMax_elements. cbn [elements].
      apply incl_app_app; [eauto|apply incl_refl]. }
    destruct (low i >? low iv).
    { inv_bind H. inv_Some. rewrite UpdateMax_elements. cbn [elements].
      apply incl_app_app; [apply incl_refl|].
      apply incl_cons; [now left|]. apply incl_tl. eauto. }
    destruct l as [|liv lm ll lr ld].
    { inv_Some. apply incl_tl, incl_refl. }
    destruct r as [|riv rm rl rr rd].
    { inv_Some. apply incl_appl, incl_refl. }
    destruct (FindMin (Node riv rm rl rr rd)) as [|miv mm ml mr md] eqn:Emin;
      [discriminate|].
    inv_bind H. inv_Some. rewrite UpdateMax_elements.
    change (elements (Node miv m (Node liv lm ll lr ld) x md))
      with (elements (Node liv lm ll lr ld) ++ (miv, md) :: elements x).
    apply incl_app_app; [apply incl_refl|].
    apply incl_tl. apply incl_cons; [eapply FindMin_In; eauto|eauto].
Qed.

Lemma Remove_node_ordered node i t :
  ordered node -> Remove_node node i = Some t -> ordered t.
Proof.
  revert i t. induction node as [|iv m l IHl r IHr d]; intros i t Ho H.
  - simpl in H. now inv_Some.
  - apply ordered_node in Ho. destruct Ho as [Hl [Hr [Hc1 Hc2]]].
    cbn [Remove_node] in H.
    destruct (low i <? low iv).
    { inv_bind H. inv_Some.
      apply (ordered_ext (Node iv m x r d)); [now rewrite UpdateMax_elements|].
      apply ordered_node. repeat split; eauto.
      intros e He. apply Hc1. eapply Remove_node_incl; eauto. }
    destruct (low i >? low iv).
    { inv_bind H. inv_Some.
      apply (ordered_ext (Node iv m l x d)); [now rewrite UpdateMax_elements|].
      apply ordered_node. repeat split; eauto.
      intros e He. apply Hc2. eapply Remove_node_incl; eauto. }
    destruct l as [|liv lm ll lr ld]; [now inv_Some|].
    destruct r as [|riv rm rl rr rd]; [now inv_Some|].
    destruct (FindMin (Node riv rm rl rr rd)) as [|miv mm ml mr md] eqn:Emin;
      [discriminate|].
    inv_bind H. inv_Some.
    apply (ordered_ext (Node miv m (Node liv lm ll lr ld) x md));
      [now rewrite UpdateMax_elements|].
    pose proof (FindMin_In _ _ _ _ _ _ Emin) as Hmin.
    pose proof (FindMin_least _ _ _ _ _ _ Hr Emin) as Hleast.
    apply ordered_node. repeat split; eauto.
    + intros e He. specialize (Hc1 _ He). specialize (Hc2 _ Hmin).
      unfold entry_low in Hc2. simpl in Hc2. lia.
    + intros e He. apply Hleast. eapply Remove_node_incl; eauto.
Qed.

(** ** Invariants of the public interface *)

Lemma Insert_state t i data t' :
  state_after (Insert t i data) = Some t' ->
  (low i > high i /\ t' = t) \/
  (low i <= high i /\ exists root,
     Insert_node (Root t) i data = Some root /\
     t' = {| Root := root; size := (size t + 1) mod SIZE_MOD |}).
Proof.
  unfold Insert. destruct (Z.gtb_spec (low i) (high i)) as [Hgt|Hle]; simpl.
  - intros H. inv_Some. left. split; [lia|reflexivity].
  - destruct (Insert_node (Root t) i data) as [root|]; simpl; intros H;
      inv_Some. right. split; [lia|eauto].
Qed.

Lemma Remove_state t i t' :
  state_after (Remove t i) = Some t' ->
  t' = t \/
  exists root, Remove_node (Root t) i = Some root /\
    t' = {| Root := root; size := (size t - 1) mod SIZE_MOD |}.
Proof.
  unfold Remove. destruct (Contains t (low i)); simpl.
  - destruct (Remove_node (Root t) i) as [root|]; simpl; intros H; inv_Some.
    right. eauto.
  - intros H. inv_Some. now left.
Qed.

Lemma Update_state t o n data t' :
  state_after (Update t o n data) = Some t' ->
  exists t1, state_after (Remove t o) = Some t1 /\
             state_after (Insert t1 n data) = Some t'.
Proof.
  unfold Update. destruct (Remove t o) as [t1|t1|] eqn:E; simpl; intros H.
  - eauto.
  - unfold Remove in E. destruct (Contains t (low o)); [|discriminate].
    destruct (Remove_node (Root t) o); discriminate.
  - discriminate.
Qed.

Lemma Insert_Inv t i data t' :
  Inv t -> state_after (Insert t i data) = Some t' -> Inv t'.
Proof.
  intros [Ha Ho] H. apply Insert_state in H.
  destruct H as [[_ ->]|[_ [root [E ->]]]]; [now split|].
  split; simpl.
  - eapply Insert_node_AugOK; eauto.
  - eapply Insert_node_ordered; eauto.
Qed.

Lemma Remove_Inv t i t' :
  Inv t -> state_after (Remove t i) = Some t' -> Inv t'.
Proof.
  intros [Ha Ho] H. apply Remove_state in H.
  destruct H as [->|[root [E ->]]]; [now split|].
  split; simpl.
  - eapply Remove_node_AugOK; eauto.
  - eapply Remove_node_ordered; eauto.
Qed.

Lemma empty_tree_Inv : Inv empty_tree.
Proof. split; simpl; [exact I|]. unfold ordered, lows. simpl. exact I. Qed.

Lemma apply_op_Inv t op t' :
  Inv t -> state_after (apply_op t op) = Some t' -> Inv t'.
Proof.
  intros Hi H. destruct op as [i data|i|o n data|]; simpl in H.
  - eapply Insert_Inv; eauto.
  - eapply Remove_Inv; eauto.
  - apply Update_state in H. destruct H as [t1 [H1 H2]].
    eapply Insert_Inv; [|exact H2]. eapply Remove_Inv; eauto.
  - inv_Some. apply empty_tree_Inv.
Qed.

(** Induction along a run: a property of the tree that every defined call
    on an admissible argument keeps is kept by the whole run. *)
Lemma run_invariant (P : IntervalTree -> Prop) (Q : Op -> Prop) :
  (forall t op t', P t -> Q op -> state_after (apply_op t op) = Some t' -> P t') ->
  forall ops t t', Forall Q ops -> P t -> run ops t = Some t' -> P t'.
Proof.
  intros Hstep. induction ops as [|op ops IH]; intros t t' HQ HP H.
  - simpl in H. now inv_Some.
  - simpl in H. inversion HQ as [|? ? Hop Hops]; subst.
    destruct (state_after (apply_op t op)) as [t1|] eqn:E; [|discriminate].
    apply (IH t1 t' Hops); [|exact H].
    exact (Hstep t op t1 HP Hop E).
Qed.

Lemma run_Inv ops t : run ops empty_tree = Some t -> Inv t.
Proof.
  intros H.
  apply (run_invariant Inv (fun _ => True)
           (fun t op t' Hi _ => apply_op_Inv t op t' Hi) ops empty_tree t);
    auto using empty_tree_Inv.
  apply Forall_forall. auto.
Qed.

Lemma Insert_range t i data t' :
  entries_in_range (Root t) -> interval_in_range i ->
  state_after (Insert t i data) = Some t' -> entries_in_range (Root t').
Proof.
  intros Hr Hi H. apply Insert_state in H.
  destruct H as [[_ ->]|[_ [root [E ->]]]]; [assumption|].
  intros e He. simpl in He.
  apply (Permutation_in _ (Insert_node_perm _ _ _ _ E)) in He.
  destruct He as [<-|He]; auto.
Qed.

Lemma Remove_range t i t' :
  entries_in_range (Root t) ->
  state_after (Remove t i) = Some t' -> entries_in_range (Root t').
Proof.
  intros Hr H. apply Remove_state in H.
  destruct H as [->|[root [E ->]]]; [assumption|].
  intros e He. apply Hr. eapply Remove_node_incl; eauto.
Qed.

Lemma run_range ops t :
  Forall op_in_range ops -> run ops empty_tree = Some t ->
  entries_in_range (Root t).
Proof.
  intros HQ H.
  apply (run_invariant (fun t => entries_in_range (Root t)) op_in_range)
    with (ops := ops) (t := empty_tree); auto.
  - clear. intros t op t' Hr Hop H.
    destruct op as [i data|i|o n data|]; simpl in H, Hop.
    + eapply Insert_range; eauto.
    + eapply Remove_range; eauto.
    + apply Update_state in H. destruct H as [t1 [H1 H2]].
      eapply Insert_range; [|apply Hop|exact H2]. eapply Remove_range; eauto.
    + inv_Some. intros e [].
  - intros e [].
Qed.

(** ** Queries on a tree that satisfies the invariants *)

Lemma overlaps_range_true lo hi iv :
  overlaps_range lo hi iv = true <-> low iv <= hi /\ high iv >= lo.
Proof. unfold overlaps_range. rewrite andb_true_iff. lia. Qed.

Lemma overlaps_range_false lo hi iv :
  overlaps_range lo hi iv = false <-> low iv > hi \/ high iv < lo.
Proof. unfold overlaps_range. rewrite andb_false_iff. lia. Qed.

Lemma preorder_perm node : Permutation (preorder node) (elements node).
Proof.
  induction node as [|iv m l IHl r IHr d]; simpl; [reflexivity|].
  rewrite IHl, IHr. apply Permutation_middle.
Qed.

Lemma filter_nil {A : Type} (f : A -> bool) (l : list A) :
  (forall x, In x l -> f x = false) -> filter f l = [].
Proof.
  induction l as [|a l IH]; simpl; intros H; [reflexivity|].
  rewrite (H a) by now left. apply IH. auto.
Qed.

Lemma filter_nonempty {A : Type} (f : A -> bool) (l : list A) :
  filter f l <> [] <-> exists x, In x l /\ f x = true.
Proof.
  split.
  - destruct (filter f l) as [|x rest] eqn:E; [congruence|]. intros _.
    exists x. apply filter_In. rewrite E. now left.
  - intros [x Hx] E. apply filter_In in Hx. rewrite E in Hx. destruct Hx.
Qed.

(** The test before the descent to the left is sound: a left subtree that
    is skipped holds no interval reaching [bound]. *)
Lemma left_skipped l bound :
  AugOK l -> left_may_reach l bound = false ->
  forall e, In e (elements l) -> entry_high e < bound.
Proof.
  intros Ha H e He. destruct l as [|liv lm ll lr ld]; [destruct He|].
  destruct (AugOK_max_bounds _ Ha) as [Hub _]. specialize (Hub e He).
  simpl in H. lia.
Qed.

(** And when it succeeds, some interval of the left subtree reaches
    [bound]. *)
Lemma left_reached l bound :
  AugOK l -> left_may_reach l bound = true ->
  exists e, In e (elements l) /\ entry_high e >= bound.
Proof.
  intros Ha H. destruct l as [|liv lm ll lr ld]; [discriminate|].
  destruct (AugOK_max_bounds _ Ha) as [_ [e [He E]]].
  exists e. split; [assumption|]. simpl in H. lia.
Qed.

Lemma left_skipped_no_overlap l lo hi :
  AugOK l -> left_may_reach l lo = false ->
  forall e, In e (elements l) -> overlapping_entry lo hi e = false.
Proof.
  intros Ha H e He. apply overlaps_range_false. right.
  apply (left_skipped l lo Ha H e He).
Qed.

Lemma FindOverlapping_spec node lo hi result :
  AugOK node ->
  FindOverlapping node lo hi result =
  result ++ filter (overlapping_entry lo hi) (preorder node).
Proof.
  revert result. induction node as [|iv m l IHl r IHr d]; intros result Ha.
  - simpl. now rewrite app_nil_r.
  - apply AugOK_node in Ha. destruct Ha as [_ [Hl Hr]].
    cbn [FindOverlapping preorder filter]. rewrite filter_app.
    change (overlapping_entry lo hi (iv, d)) with (overlaps_range lo hi iv).
    rewrite (IHr _ Hr).
    assert (El : forall acc,
      (if left_may_reach l lo then FindOverlapping l lo hi acc else acc) =
      acc ++ filter (overlapping_entry lo hi) (preorder l)).
    { intros acc. destruct (left_may_reach l lo) eqn:E; [now apply IHl|].
      rewrite filter_nil; [now rewrite app_nil_r|].
      intros e He. apply (left_skipped_no_overlap l lo hi Hl E).
      apply (Permutation_in _ (preorder_perm l) He). }
    rewrite El. destruct (overlaps_range lo hi iv).
    + now rewrite <- !app_assoc.
    + now rewrite <- app_assoc.
Qed.

Lemma contains_is_overlaps value iv :
  contains_value value iv = overlaps_range value value iv.
Proof. reflexivity. Qed.

Lemma FindContaining_FindOverlapping node value result :
  FindContaining node value result = FindOverlapping node value value result.
Proof.
  revert result. induction node as [|iv m l IHl r IHr d]; intros result;
    [reflexivity|].
  cbn [FindContaining FindOverlapping]. rewrite contains_is_overlaps.
  rewrite IHr. destruct (left_may_reach l value); [now rewrite IHl|reflexivity].
Qed.

Lemma Contains_Overlaps node value :
  Contains_node node value = Overlaps_node node value value.
Proof.
  induction node as [|iv m l IHl r IHr d]; [reflexivity|].
  cbn [Contains_node Overlaps_node]. rewrite contains_is_overlaps, IHl, IHr.
  reflexivity.
Qed.

(** The boolean query descends to one side only, and that is enough: when
    it goes left, either the left subtree holds a match or the right one
    holds none. *)
Lemma Overlaps_node_spec node lo hi :
  AugOK node -> ordered node ->
  Overlaps_node node lo hi = existsb (overlapping_entry lo hi) (elements node).
Proof.
  induction node as [|iv m l IHl r IHr d]; intros Ha Ho; [reflexivity|].
  apply AugOK_node in Ha. destruct Ha as [_ [Hal Har]].
  apply ordered_node in Ho. destruct Ho as [Hol [Hor [Hc1 Hc2]]].
  cbn [Overlaps_node elements]. rewrite existsb_app. cbn [existsb].
  change (overlapping_entry lo hi (iv, d)) with (overlaps_range lo hi iv).
  destruct (overlaps_range lo hi iv) eqn:Eroot.
  { now rewrite orb_true_r. }
  rewrite orb_false_l. apply overlaps_range_false in Eroot.
  destruct (left_may_reach l lo) eqn:Eleft.
  - rewrite (IHl Hal Hol).
    destruct (existsb (overlapping_entry lo hi) (elements l)) eqn:El;
      [reflexivity|].
    simpl. symmetry.
    destruct (existsb (overlapping_entry lo hi) (elements r)) eqn:Er;
      [|reflexivity].
    exfalso.
    apply existsb_exists in Er. destruct Er as [e [He Hov]].
    apply overlaps_range_true in Hov. specialize (Hc2 e He).
    unfold entry_low in Hc2.
    destruct (left_reached l lo Hal Eleft) as [x [Hx Hhigh]].
    specialize (Hc1 x Hx).
    assert (Hx' : overlapping_entry lo hi x = true).
    { apply overlaps_range_true. unfold entry_low, entry_high in *. lia. }
    assert (Hex : existsb (overlapping_entry lo hi) (elements l) = true)
      by (apply existsb_exists; eauto).
    congruence.
  - rewrite (IHr Har Hor).
    assert (El : existsb (overlapping_entry lo hi) (elements l) = false).
    { destruct (existsb (overlapping_entry lo hi) (elements l)) eqn:E;
        [|reflexivity].
      apply existsb_exists in E. destruct E as [e [He Hov]].
      rewrite (left_skipped_no_overlap l lo hi Hal Eleft e He) in Hov.
      discriminate. }
    now rewrite El.
Qed.

Lemma MaxHighOverlapping_node_spec node lo hi maxValue :
  AugOK node ->
  MaxHighOverlapping_node node lo hi maxValue =
  max_high_of maxValue (filter (overlapping_entry lo hi) (elements node)).
Proof.
  revert maxValue. induction node as [|iv m l IHl r IHr d]; intros acc Ha;
    [reflexivity|].
  apply AugOK_node in Ha. destruct Ha as [_ [Hl Hr]].
  cbn [MaxHighOverlapping_node elements]. rewrite filter_app. cbn [filter].
  change (overlapping_entry lo hi (iv, d)) with (overlaps_range lo hi iv).
  rewrite (IHr _ Hr).
  assert (El : forall a,
    (if left_may_reach l lo then MaxHighOverlapping_node l lo hi a else a) =
    max_high_of a (filter (overlapping_entry lo hi) (elements l))).
  { intros a. destruct (left_may_reach l lo) eqn:E; [now apply IHl|].
    rewrite filter_nil; [reflexivity|].
    apply (left_skipped_no_overlap l lo hi Hl E). }
  rewrite El, max_high_of_app, max_high_of_swap. f_equal.
  destruct (overlaps_range lo hi iv); [|reflexivity].
  rewrite max_high_of_max. reflexivity.
Qed.

(** ** Printing *)

Lemma append_assoc (a b c : string) :
  ((a ++ b) ++ c)%string = (a ++ (b ++ c))%string.
Proof. induction a as [|x a IH]; simpl; [reflexivity|now rewrite IH]. Qed.

Lemma render_all_app a b :
  render_all (a ++ b) = (render_all a ++ render_all b)%string.
Proof.
  induction a as [|e a IH]; cbn [render_all List.app]; [reflexivity|].
  now rewrite IH, append_assoc.
Qed.

Lemma append_empty_r (s : string) : (s ++ "")%string = s.
Proof. induction s as [|c s IH]; simpl; [reflexivity|now rewrite IH]. Qed.

Lemma ToString_node_spec node oss :
  ToString_node node oss = (oss ++ render_all (elements node))%string.
Proof.
  revert oss. induction node as [|iv m l IHl r IHr d]; intros oss.
  - simpl. now rewrite append_empty_r.
  - cbn [ToString_node elements]. rewrite IHr, IHl, render_all_app.
    cbn [render_all]. unfold render, entry_low, entry_high. cbn [fst].
    now rewrite !append_assoc.
Qed.

(** ** Runs of insertions *)

Lemma run_inserts_elements entries :
  forall t0 t,
    (forall e, In e entries -> entry_low e <= entry_high e) ->
    run (map insert_entry entries) t0 = Some t ->
    Permutation (elements (Root t)) (entries ++ elements (Root t0)).
Proof.
  induction entries as [|e es IH]; intros t0 t Hvalid H.
  - simpl in H. inv_Some. reflexivity.
  - cbn [map run] in H.
    destruct (state_after (apply_op t0 (insert_entry e))) as [t1|] eqn:E;
      [|discriminate].
    unfold insert_entry in E. cbn [apply_op] in E. apply Insert_state in E.
    destruct E as [[Hgt _]|[_ [root [Eins ->]]]].
    { specialize (Hvalid e (or_introl eq_refl)).
      unfold entry_low, entry_high in Hvalid. lia. }
    rewrite (IH _ _ (fun x Hx => Hvalid x (or_intror Hx)) H). cbn [Root].
    rewrite (Insert_node_perm _ _ _ _ Eins), <- surjective_pairing.
    cbn [List.app]. symmetry. apply Permutation_middle.
Qed.

Lemma filter_perm {A : Type} (f : A -> bool) (l l' : list A) :
  Permutation l l' -> Permutation (filter f l) (filter f l').
Proof.
  induction 1 as [|x l l' _ IH|x y l|l l' l'' _ IH1 _ IH2]; cbn [filter].
  - constructor.
  - destruct (f x); [now constructor|assumption].
  - destruct (f x), (f y); try reflexivity. apply perm_swap.
  - now transitivity (filter f l').
Qed.

Lemma Overlaps_iff_Overlapping node lo hi :
  AugOK node -> ordered node ->
  Overlaps_node node lo hi = true <-> FindOverlapping node lo hi [] <> [].
Proof.
  intros Ha Ho. rewrite (Overlaps_node_spec _ _ _ Ha Ho).
  rewrite (FindOverlapping_spec _ _ _ _ Ha). cbn [List.app].
  rewrite filter_nonempty, existsb_exists.
  split; intros [e [He Hf]]; exists e; (split; [|exact Hf]).
  - apply (Permutation_in _ (Permutation_sym (preorder_perm node)) He).
  - apply (Permutation_in _ (preorder_perm node) He).
Qed.

(** ** The documented scenarios, evaluated *)

Example scenario_queries :
  option_map
    (fun t => (Overlapping t 4 5, Containing t 6, MaxHighOverlapping t 0 100,
               Size t))
    (run scenario_ops empty_tree)
  = Some ([(mkInterval 2 6, None); (mkInterval 5 8, None)],
          [(mkInterval 2 6, None); (mkInterval 5 8, None)], 20, 4).
Proof. reflexivity. Qed.

Example scenario_deletion :
  option_map (fun t => (Size t, Containing t 6))
    (run (scenario_ops ++ [OpRemove (mkInterval 5 8)]) empty_tree)
  = Some (3, [(mkInterval 2 6, None)]).
Proof. reflexivity. Qed.

Example scenario_clear :
  option_map (fun t => (IsEmpty t, Size t))
    (run (scenario_ops ++ [OpClear]) empty_tree)
  = Some (true, 0).
Proof. reflexivity. Qed.

(** ** Counting nodes *)

Lemma count_nodes_elements node :
  count_nodes node = Z.of_nat (List.length (elements node)).
Proof.
  induction node as [|iv m l IHl r IHr d]; cbn [count_nodes elements];
    [reflexivity|].
  rewrite length_app. cbn [List.length]. lia.
Qed.

(** As long as only valid intervals are inserted, the counter and the
    number of reachable nodes agree (the counter being a [size_t]). *)
Lemma Size_after_inserts entries t :
  (forall e, In e entries -> entry_low e <= entry_high e) ->
  run (map insert_entry entries) empty_tree = Some t ->
  count_nodes (Root t) = Z.of_nat (List.length entries) /\
  Size t = Z.of_nat (List.length entries) mod SIZE_MOD.
Proof.
  intros Hvalid H. split.
  - rewrite count_nodes_elements.
    rewrite (Permutation_length (run_inserts_elements _ _ _ Hvalid H)).
    cbn [empty_tree Root elements]. now rewrite app_nil_r.
  - assert (G : forall es t0 t1,
               (forall e, In e es -> entry_low e <= entry_high e) ->
               run (map insert_entry es) t0 = Some t1 ->
               size t1 = (size t0 + Z.of_nat (List.length es)) mod SIZE_MOD
               \/ (es = [] /\ t1 = t0)).
    { clear. induction es as [|e es IH]; intros t0 t1 Hvalid H.
      - right. simpl in H. inv_Some. now split.
      - left. cbn [map run] in H.
        destruct (state_after (apply_op t0 (insert_entry e))) as [t2|] eqn:E;
          [|discriminate].
        unfold insert_entry in E. cbn [apply_op] in E. apply Insert_state in E.
        destruct E as [[Hgt _]|[_ [root [_ ->]]]].
        { specialize (Hvalid e (or_introl eq_refl)).
          unfold entry_low, entry_high in Hvalid. lia. }
        destruct (IH _ _ (fun x Hx => Hvalid x (or_intror Hx)) H)
          as [->|[-> ->]]; cbn [size List.length].
        + rewrite Zplus_mod_idemp_l. f_equal. lia.
        + f_equal. }
    unfold Size. destruct (G _ _ _ Hvalid H) as [->|[-> ->]]; reflexivity.
Qed.

(** * The claims *)

(** C1 (fails on the code).  [Size()] is documented as the number of
    intervals stored, but the public [Remove] decrements it whenever the
    point probe [Contains(i.low)] succeeds, whether or not the private
    [Remove] found a node with that [low].  After [Insert(1,5)] and
    [Remove({3,4})] the node is still there and [Size()] is 0. *)
Theorem Size_differs_from_node_count_after_Remove :
  exists t,
    run [OpInsert (mkInterval 1 5) None; OpRemove (mkInterval 3 4)] empty_tree
      = Some t /\
    Size t = 0 /\ count_nodes (Root t) = 1.
Proof. eexists. split; [reflexivity|]. split; reflexivity. Qed.

(** C2.  After every sequence of public [Insert], [Remove], [Update] and
    [Clear] calls, every node's [max] is the maximum of its own [high] and
    the [max] of each present child, and is the maximum [high] over the
    node's own interval and all its descendants. *)
Theorem max_is_maintained_by_every_operation :
  forall ops t,
    run ops empty_tree = Some t ->
    Forall_nodes (fun n => local_max_ok n /\ subtree_max_ok n) (Root t).
Proof.
  intros ops t H. destruct (run_Inv _ _ H) as [Ha _].
  apply (Forall_nodes_impl AugOK); [|now apply AugOK_Forall_nodes].
  intros n Hn. split; [|now apply AugOK_subtree_max_ok].
  destruct n as [|iv m l r d]; [exact I|].
  unfold AugOK in Hn. cbn [Forall_nodes] in Hn. tauto.
Qed.

Lemma max_is_maintained_witness :
  exists t,
    run (scenario_ops ++
         [OpRemove (mkInterval 5 8);
          OpUpdate (mkInterval 2 6) (mkInterval 4 30) (Some 7);
          OpInsert (mkInterval 9 2) None]) empty_tree = Some t /\
    Forall_nodes (fun n => local_max_ok n /\ subtree_max_ok n) (Root t).
Proof.
  eexists. split; [reflexivity|].
  apply (max_is_maintained_by_every_operation
           (scenario_ops ++
            [OpRemove (mkInterval 5 8);
             OpUpdate (mkInterval 2 6) (mkInterval 4 30) (Some 7);
             OpInsert (mkInterval 9 2) None])).
  reflexivity.
Defined.

(** C4.  On every tree built by the public operations, [Contains(value)]
    is true exactly when [Containing(value)] is non-empty, which is exactly
    when some stored interval has [low <= value <= high]; and
    [Overlaps(lo, hi)] is true exactly when [Overlapping(lo, hi)] is
    non-empty. *)
Theorem boolean_queries_agree_with_list_queries :
  forall ops t value lo hi,
    run ops empty_tree = Some t ->
    (Contains t value = true <-> Containing t value <> []) /\
    (Containing t value <> [] <->
       exists e, In e (elements (Root t)) /\
                 entry_low e <= value <= entry_high e) /\
    (Overlaps t lo hi = true <-> Overlapping t lo hi <> []).
Proof.
  intros ops t value lo hi H. destruct (run_Inv _ _ H) as [Ha Ho].
  unfold Contains, Containing, Overlaps, Overlapping.
  rewrite Contains_Overlaps, FindContaining_FindOverlapping.
  split; [now apply Overlaps_iff_Overlapping|].
  split; [|now apply Overlaps_iff_Overlapping].
  rewrite (FindOverlapping_spec _ _ _ _ Ha). cbn [List.app].
  rewrite filter_nonempty.
  split; intros [e [He Hf]]; exists e.
  - split; [apply (Permutation_in _ (preorder_perm _) He)|].
    apply overlaps_range_true in Hf. unfold entry_low, entry_high. lia.
  - split; [apply (Permutation_in _ (Permutation_sym (preorder_perm _)) He)|].
    apply overlaps_range_true. unfold entry_low, entry_high in Hf. lia.
Qed.

Lemma boolean_queries_witness :
  exists t,
    run scenario_ops empty_tree = Some t /\
    (Contains t 6 = true <-> Containing t 6 <> []) /\
    (Containing t 6 <> [] <->
       exists e, In e (elements (Root t)) /\ entry_low e <= 6 <= entry_high e) /\
    (Overlaps t 9 14 = true <-> Overlapping t 9 14 <> []).
Proof.
  eexists. split; [reflexivity|].
  apply (boolean_queries_agree_with_list_queries scenario_ops).
  reflexivity.
Defined.

(** C5 (fails on the code).  The right-heavy dispatch of the private
    [Insert] tests [i.low > node->right->interval.low]; an interval whose
    [low] equals that of the right child went to the right of it, yet is
    treated as the right-left case.  Inserting the lows 0, 1, 2, 3, 4, 3
    succeeds every time and leaves the node [3,3] with an empty left
    subtree and a right subtree of height 2. *)
Theorem Insert_with_equal_lows_leaves_the_tree_unbalanced :
  exists t,
    run (map insert_entry
           [ (mkInterval 0 0, None); (mkInterval 1 1, None);
             (mkInterval 2 2, None); (mkInterval 3 3, None);
             (mkInterval 4 4, None); (mkInterval 3 3, None) ]) empty_tree
      = Some t /\
    Size t = 6 /\
    forallb_nodes balance_okb (Root t) = false /\
    ~ Forall_nodes balance_ok (Root t).
Proof.
  eexists. split; [vm_compute; reflexivity|]. split; [reflexivity|].
  split; [reflexivity|].
  cbn [Root Forall_nodes]. intros (_ & _ & (Hbad & _)).
  unfold balance_ok in Hbad. cbn in Hbad. lia.
Qed.

(** C6 (fails on the code).  Same dispatch: after two insertions of
    [(1,1)], the third one makes the root right-heavy, is not strictly
    greater than the right child's [low], and so [RotateRight] is applied
    to the right child, whose left child is absent: a null dereference. *)
Theorem Insert_with_equal_lows_rotates_without_child :
  exists t,
    run [OpInsert (mkInterval 1 1) None; OpInsert (mkInterval 1 1) None]
      empty_tree = Some t /\
    Root t = Node (mkInterval 1 1) 1 nullptr
               (Node (mkInterval 1 1) 1 nullptr nullptr None) None /\
    RotateRight (Node (mkInterval 1 1) 1 nullptr
                   (Node (mkInterval 1 1) 1 nullptr nullptr None) None) = None /\
    Insert t (mkInterval 1 1) None = Undefined_behaviour.
Proof. eexists. split; [reflexivity|]. repeat split. Qed.

(** C7.  On every tree built by the public operations, [Overlapping(lo,
    hi)] holds exactly the stored entries with [low <= hi] and
    [high >= lo], each as often as it is stored; and when the tree was
    built by inserting the valid entries [entries], all of them within
    [lo, hi], the result is [entries] up to order. *)
Theorem Overlapping_is_exact :
  forall ops t lo hi,
    run ops empty_tree = Some t ->
    Permutation (Overlapping t lo hi)
                (filter (overlapping_entry lo hi) (elements (Root t))) /\
    forall entries,
      ops = map insert_entry entries ->
      (forall e, In e entries ->
         entry_low e <= entry_high e /\ lo <= entry_low e /\ entry_high e <= hi) ->
      Permutation (Overlapping t lo hi) entries /\
      List.length (Overlapping t lo hi) = List.length entries.
Proof.
  intros ops t lo hi H. destruct (run_Inv _ _ H) as [Ha _].
  assert (Hperm : Permutation (Overlapping t lo hi)
                    (filter (overlapping_entry lo hi) (elements (Root t)))).
  { unfold Overlapping. rewrite (FindOverlapping_spec _ _ _ _ Ha).
    cbn [List.app]. apply filter_perm, preorder_perm. }
  split; [exact Hperm|].
  intros entries -> Hcover.
  assert (Hall : Permutation (Overlapping t lo hi) entries).
  { rewrite Hperm.
    apply run_inserts_elements in H; [|intros e He; apply (Hcover e He)].
    cbn [empty_tree Root elements] in H. rewrite app_nil_r in H.
    rewrite (filter_perm _ _ _ H). clear - Hcover.
    induction entries as [|e es IH]; [reflexivity|]. cbn [filter].
    destruct (Hcover e (or_introl eq_refl)) as [H1 [H2 H3]].
    assert (E : overlapping_entry lo hi e = true).
    { apply overlaps_range_true. unfold entry_low, entry_high in *. lia. }
    rewrite E. apply perm_skip, IH. intros x Hx. apply Hcover. now right. }
  split; [exact Hall|]. apply Permutation_length, Hall.
Qed.

Lemma Overlapping_is_exact_witness :
  exists t,
    run scenario_ops empty_tree = Some t /\
    Permutation (Overlapping t 4 5)
                (filter (overlapping_entry 4 5) (elements (Root t))) /\
    Permutation (Overlapping t 0 100) scenario_entries /\
    List.length (Overlapping t 0 100) = 4%nat.
Proof.
  eexists. split; [reflexivity|].
  destruct (Overlapping_is_exact scenario_ops _ 4 5 eq_refl) as [P1 _].
  destruct (Overlapping_is_exact scenario_ops _ 0 100 eq_refl) as [_ P2].
  split; [exact P1|].
  apply (P2 scenario_entries eq_refl).
  intros e He. unfold entry_low, entry_high.
  repeat (destruct He as [<-|He]; [cbn; lia|]). destruct He.
Defined.

(** C8.  [Insert(low, high, payload)] with [low > high] throws before it
    touches the tree: the caller is left with the very tree it had, hence
    the same nodes, intervals, payloads and [Size()]. *)
Theorem Insert_rejects_low_above_high :
  forall t lo hi payload,
    lo > hi ->
    Insert_bounds t lo hi payload = Throws_invalid_argument t /\
    Insert t (mkInterval lo hi) payload = Throws_invalid_argument t.
Proof.
  intros t lo hi payload Hgt. unfold Insert_bounds, Insert. cbn [low high].
  destruct (Z.gtb_spec lo hi) as [_|Hle]; [split; reflexivity|lia].
Qed.

Lemma Insert_rejects_witness :
  5 > 2 /\
  Insert_bounds (mkTree (make_shared (mkInterval 1 3) (Some 4)) 1) 5 2 None =
    Throws_invalid_argument (mkTree (make_shared (mkInterval 1 3) (Some 4)) 1) /\
  Insert (mkTree (make_shared (mkInterval 1 3) (Some 4)) 1) (mkInterval 5 2) None =
    Throws_invalid_argument (mkTree (make_shared (mkInterval 1 3) (Some 4)) 1).
Proof.
  split; [reflexivity|].
  apply (Insert_rejects_low_above_high
           (mkTree (make_shared (mkInterval 1 3) (Some 4)) 1) 5 2 None).
  reflexivity.
Defined.

(** At [T = int] the open embedding is the one used in this file. *)
Lemma MaxHighOverlappingT_at_int node lo hi maxValue :
  MaxHighOverlappingT_node Z Z.leb Z.ltb (as_template node) lo hi maxValue =
  MaxHighOverlapping_node node lo hi maxValue.
Proof.
  revert maxValue. induction node as [|iv m l IHl r IHr d]; intros acc;
    [reflexivity|].
  cbn [as_template MaxHighOverlappingT_node MaxHighOverlapping_node lowT highT].
  rewrite IHr. f_equal.
  assert (Eacc : (if (low iv <=? hi) && T_ge Z Z.leb (high iv) lo
                  then std_max Z Z.ltb acc (high iv) else acc) =
                 (if overlaps_range lo hi iv then Z.max acc (high iv)
                  else acc)).
  { unfold overlaps_range, T_ge, std_max. rewrite Z.geb_leb.
    destruct ((low iv <=? hi) && (lo <=? high iv)); [|reflexivity].
    destruct (Z.ltb_spec acc (high iv)); lia. }
  rewrite Eacc. destruct l as [|liv lm ll lr ld]; [reflexivity|].
  change (as_template (Node liv lm ll lr ld))
    with (NodeT (mkIntervalT (low liv) (high liv)) lm
                (as_template ll) (as_template lr) ld) at 1.
  cbn beta iota. unfold left_may_reach, T_ge. rewrite Z.geb_leb.
  destruct (lo <=? lm); [apply IHl|reflexivity].
Qed.

(** C9 (fails on the code).  The public [MaxHighOverlapping] starts from
    [std::numeric_limits<T>::min()], commented as the smallest possible
    value of [T].  At [T = double] that is the smallest positive value:
    on the empty tree the call returns [2^-1022], which is above [-1] and
    so not the least value of the type; and with the single interval
    [[-5, -1]] stored, which overlaps [[-10, 0]], the call returns
    [2^-1022] again and not [-1], the largest [high] that overlaps. *)
Theorem MaxHighOverlapping_at_double_starts_above_negative_highs :
  MaxHighOverlapping_double nullptrT (double_of_int 0) (double_of_int 1)
    = DBL_MIN /\
  double_lt (double_of_int (-1)) DBL_MIN = true /\
  (let stored := mkIntervalT (double_of_int (-5)) (double_of_int (-1)) in
   let root := make_sharedT stored None in
   double_le (lowT double stored) (double_of_int 0) &&
     T_ge double double_le (highT double stored) (double_of_int (-10)) = true /\
   MaxHighOverlapping_double root (double_of_int (-10)) (double_of_int 0)
     = DBL_MIN /\
   MaxHighOverlapping_double root (double_of_int (-10)) (double_of_int 0)
     <> highT double stored).
Proof.
  split; [reflexivity|]. split; [vm_compute; reflexivity|].
  cbv zeta. split; [vm_compute; reflexivity|].
  split; [vm_compute; reflexivity|].
  vm_compute. discriminate.
Qed.

(** On every tree built by the public operations from [int] bounds (the
    default [T = int]), [MaxHighOverlapping(lo, hi)] is [INT_MIN] when no
    stored interval has [low <= hi] and [high >= lo] (in particular on the
    empty tree), and otherwise is the largest [high] among the stored
    intervals that do. *)
Theorem MaxHighOverlapping_is_the_maximum_or_INT_MIN :
  forall ops t lo hi,
    Forall op_in_range ops ->
    run ops empty_tree = Some t ->
    let matches := filter (overlapping_entry lo hi) (elements (Root t)) in
    (matches = [] -> MaxHighOverlapping t lo hi = INT_MIN) /\
    (matches <> [] ->
       (exists e, In e matches /\ entry_high e = MaxHighOverlapping t lo hi) /\
       (forall e, In e matches -> entry_high e <= MaxHighOverlapping t lo hi)).
Proof.
  intros ops t lo hi Hrange H matches.
  destruct (run_Inv _ _ H) as [Ha _].
  pose proof (run_range _ _ Hrange H) as Hr.
  unfold MaxHighOverlapping.
  rewrite (MaxHighOverlapping_node_spec _ _ _ _ Ha). fold matches.
  split.
  - intros ->. reflexivity.
  - intros Hne. split; [|intros e He; now apply max_high_of_ge_entry].
    destruct (max_high_of_attained INT_MIN matches) as [E|Hex]; [|exact Hex].
    destruct matches as [|e0 rest] eqn:Em; [congruence|].
    exists e0. split; [now left|].
    assert (Hin : In e0 (elements (Root t))).
    { assert (Hm : In e0 matches) by (subst matches; rewrite Em; now left).
      apply filter_In in Hm. tauto. }
    pose proof (max_high_of_ge_entry INT_MIN (e0 :: rest) e0
                  (or_introl eq_refl)) as Hge.
    destruct (Hr e0 Hin) as [_ [Hlo _]]. unfold entry_high in *. lia.
Qed.

Lemma MaxHighOverlapping_witness :
  exists t,
    run scenario_ops empty_tree = Some t /\
    let matches := filter (overlapping_entry 0 100) (elements (Root t)) in
    (matches = [] -> MaxHighOverlapping t 0 100 = INT_MIN) /\
    (matches <> [] ->
       (exists e, In e matches /\ entry_high e = MaxHighOverlapping t 0 100) /\
       (forall e, In e matches -> entry_high e <= MaxHighOverlapping t 0 100)).
Proof.
  eexists. split; [reflexivity|].
  apply (MaxHighOverlapping_is_the_maximum_or_INT_MIN scenario_ops _ 0 100).
  - repeat constructor; cbn; unfold INT_MIN, INT_MAX; lia.
  - reflexivity.
Defined.

(** C10.  On every tree built by the public operations, [ToString()] is
    the concatenation of ["[low, high] "] over the stored intervals taken
    in in-order, and that order is ascending in [low]; for the documented
    scenario it is ["[1, 3] [2, 6] [5, 8] [15, 20] "]. *)
Theorem ToString_lists_intervals_in_ascending_low_order :
  forall ops t,
    run ops empty_tree = Some t ->
    ToString t = render_all (elements (Root t)) /\
    ascending (map entry_low (elements (Root t))) /\
    (ops = scenario_ops ->
     ToString t = "[1, 3] [2, 6] [5, 8] [15, 20] "%string).
Proof.
  intros ops t H. destruct (run_Inv _ _ H) as [_ Ho].
  split; [unfold ToString; now rewrite ToString_node_spec|].
  split; [exact Ho|].
  intros ->. vm_compute in H. injection H as <-. reflexivity.
Qed.

Lemma ToString_witness :
  exists t,
    run scenario_ops empty_tree = Some t /\
    ToString t = render_all (elements (Root t)) /\
    ascending (map entry_low (elements (Root t))) /\
    ToString t = "[1, 3] [2, 6] [5, 8] [15, 20] "%string.
Proof.
  eexists. split; [reflexivity|].
  destruct (ToString_lists_intervals_in_ascending_low_order scenario_ops _
              eq_refl) as [E [Hasc Hscn]].
  split; [exact E|]. split; [exact Hasc|]. exact (Hscn eq_refl).
Defined.

(** * Further properties of the code *)

(** ** Balance of insert-only trees *)

Lemma Height_nonneg node : 0 <= Height node.
Proof. induction node; cbn [Height]; lia. Qed.

Lemma Height_UpdateMax node : Height (UpdateMax node) = Height node.
Proof. destruct node; reflexivity. Qed.

Lemma balanced_node iv m l r d :
  balanced (Node iv m l r d) <->
  -1 <= Height l - Height r <= 1 /\ balanced l /\ balanced r.
Proof. unfold balanced. cbn [Forall_nodes]. unfold balance_ok at 1. cbn [GetBalance]. tauto. Qed.

Lemma balanced_UpdateMax iv m l r d :
  balanced (UpdateMax (Node iv m l r d)) <->
  -1 <= Height l - Height r <= 1 /\ balanced l /\ balanced r.
Proof. unfold UpdateMax. apply balanced_node. Qed.

Lemma Height_Node iv m l r d :
  Height (Node iv m l r d) = 1 + Z.max (Height l) (Height r).
Proof. reflexivity. Qed.

Lemma Height_UpdateMax_Node iv m l r d :
  Height (UpdateMax (Node iv m l r d)) = 1 + Z.max (Height l) (Height r).
Proof. reflexivity. Qed.

(** The dispatch after a descent to the left that made the left subtree
    one level higher ([h] is its former height). *)
Lemma Insert_rebalance_after_left iv m l' r d i h :
  balanced l' -> balanced r ->
  Height l' = h + 1 -> 0 <= h -> -1 <= h - Height r <= 1 ->
  (h = 0 \/
   match l' with
   | nullptr => False
   | Node liv _ ll lr _ =>
       if low i <? low liv then Height ll = Height lr + 1
       else Height lr = Height ll + 1
   end) ->
  exists t',
    Insert_rebalance (Node iv m l' r d) i = Some t' /\ balanced t' /\
    (Height t' = 1 + Z.max h (Height r) \/
     (Height t' = 2 + Z.max h (Height r) /\ t' = Node iv m l' r d /\
      Height l' = Height r + 1)).
Proof.
  intros Bl Br Hl Hh Hbal Hheavy.
  pose proof (Height_nonneg r) as Hr0.
  unfold Insert_rebalance. cbn [GetBalance].
  destruct (Z.gtb_spec (Height l' - Height r) 1) as [Hgt|Hle].
  - (* the left subtree is two levels higher *)
    destruct Hheavy as [->|Hheavy]; [lia|].
    destruct l' as [|liv lm ll lr ld]; [destruct Hheavy|].
    destruct (proj1 (balanced_node _ _ _ _ _) Bl) as [Bl0 [Bll Blr]].
    rewrite Height_Node in Hl, Hgt.
    pose proof (Height_nonneg ll) as Hll0.
    pose proof (Height_nonneg lr) as Hlr0.
    destruct (low i <? low liv).
    + cbn [RotateRight]. eexists. split; [reflexivity|].
      split.
      * apply balanced_UpdateMax. rewrite Height_UpdateMax_Node.
        split; [lia|]. split; [assumption|].
        apply balanced_UpdateMax. split; [lia|]. split; assumption.
      * left. rewrite !Height_UpdateMax_Node. lia.
    + destruct lr as [|xiv xm a b xd].
      { change (Height nullptr) with 0 in *. lia. }
      destruct (proj1 (balanced_node _ _ _ _ _) Blr) as [Bx [Ba Bb]].
      rewrite Height_Node in Hl, Hgt, Hheavy, Bl0, Hlr0.
      pose proof (Height_nonneg a) as Ha0.
      pose proof (Height_nonneg b) as Hb0.
      cbn [RotateLeft bind]. unfold UpdateMax at 1. cbn [RotateRight].
      eexists. split; [reflexivity|].
      split.
      * apply balanced_UpdateMax. rewrite !Height_UpdateMax_Node.
        split; [lia|]. split; apply balanced_UpdateMax.
        -- split; [lia|]. split; assumption.
        -- split; [lia|]. split; assumption.
      * left. rewrite !Height_UpdateMax_Node. lia.
  - destruct (Z.ltb_spec (Height l' - Height r) (-1)) as [Hlt|Hge]; [lia|].
    eexists. split; [reflexivity|].
    split; [apply balanced_node; split; [lia|split; assumption]|].
    rewrite Height_Node.
    destruct (Z.eq_dec (Height l') (Height r + 1)) as [E|E];
      [right; repeat split; lia|left; lia].
Qed.

(** The mirror image, after a descent to the right; here the test
    [i.low > node->right->interval.low] needs [i.low] to differ from the
    right child's [low]. *)
Lemma Insert_rebalance_after_right iv m l r' d i h :
  balanced l -> balanced r' ->
  Height r' = h + 1 -> 0 <= h -> -1 <= Height l - h <= 1 ->
  (h = 0 \/
   match r' with
   | nullptr => False
   | Node riv _ rl rr _ =>
       low riv <> low i /\
       (if low i <? low riv then Height rl = Height rr + 1
        else Height rr = Height rl + 1)
   end) ->
  exists t',
    Insert_rebalance (Node iv m l r' d) i = Some t' /\ balanced t' /\
    (Height t' = 1 + Z.max (Height l) h \/
     (Height t' = 2 + Z.max (Height l) h /\ t' = Node iv m l r' d /\
      Height r' = Height l + 1)).
Proof.
  intros Bl Br Hr Hh Hbal Hheavy.
  pose proof (Height_nonneg l) as Hl0.
  unfold Insert_rebalance. cbn [GetBalance].
  destruct (Z.gtb_spec (Height l - Height r') 1) as [Hgt|Hle]; [lia|].
  destruct (Z.ltb_spec (Height l - Height r') (-1)) as [Hlt|Hge].
  - destruct Hheavy as [->|Hheavy]; [lia|].
    destruct r' as [|riv rm rl rr rd]; [destruct Hheavy|].
    destruct Hheavy as [Hne Hheavy].
    destruct (proj1 (balanced_node _ _ _ _ _) Br) as [Br0 [Brl Brr]].
    rewrite Height_Node in Hr, Hlt.
    pose proof (Height_nonneg rl) as Hrl0.
    pose proof (Height_nonneg rr) as Hrr0.
    destruct (Z.gtb_spec (low i) (low riv)) as [Hkey|Hkey].
    + destruct (Z.ltb_spec (low i) (low riv)) as [Hc|Hc]; [lia|].
      cbn [RotateLeft]. eexists. split; [reflexivity|].
      split.
      * apply balanced_UpdateMax. rewrite Height_UpdateMax_Node.
        split; [lia|]. split; [|assumption].
        apply balanced_UpdateMax. split; [lia|]. split; assumption.
      * left. rewrite !Height_UpdateMax_Node. lia.
    + destruct (Z.ltb_spec (low i) (low riv)) as [Hc|Hc]; [|lia].
      destruct rl as [|xiv xm a b xd].
      { change (Height nullptr) with 0 in *. lia. }
      destruct (proj1 (balanced_node _ _ _ _ _) Brl) as [Bx [Ba Bb]].
      rewrite Height_Node in Hr, Hlt, Hheavy, Br0, Hrl0.
      pose proof (Height_nonneg a) as Ha0.
      pose proof (Height_nonneg b) as Hb0.
      cbn [RotateRight bind]. unfold UpdateMax at 1. cbn [RotateLeft].
      eexists. split; [reflexivity|].
      split.
      * apply balanced_UpdateMax. rewrite !Height_UpdateMax_Node.
        split; [lia|]. split; apply balanced_UpdateMax.
        -- split; [lia|]. split; assumption.
        -- split; [lia|]. split; assumption.
      * left. rewrite !Height_UpdateMax_Node. lia.
  - eexists. split; [reflexivity|].
    split; [apply balanced_node; split; [lia|split; assumption]|].
    rewrite Height_Node.
    destruct (Z.eq_dec (Height r') (Height l + 1)) as [E|E];
      [right; repeat split; lia|left; lia].
Qed.

Lemma Insert_rebalance_balanced_node iv m l r d i :
  -1 <= Height l - Height r <= 1 ->
  Insert_rebalance (Node iv m l r d) i = Some (Node iv m l r d).
Proof.
  intros Hb. unfold Insert_rebalance. cbn [GetBalance].
  destruct (Z.gtb_spec (Height l - Height r) 1) as [Hgt|_]; [lia|].
  destruct (Z.ltb_spec (Height l - Height r) (-1)) as [Hlt|_]; [lia|].
  reflexivity.
Qed.

(** The private [Insert] on a balanced subtree that holds no interval with
    the [low] of [i]: it returns, the result is balanced, and its height is
    the former one or one more. *)
Lemma Insert_node_balanced t i data :
  balanced t ->
  (forall e, In e (elements t) -> entry_low e <> low i) ->
  exists t',
    Insert_node t i data = Some t' /\ balanced t' /\
    (Height t' = Height t \/
     (Height t' = Height t + 1 /\ grew_toward i t t')).
Proof.
  induction t as [|iv m l IHl r IHr d]; intros B Hkeys.
  - exists (make_shared i data). split; [reflexivity|].
    split; [apply balanced_node; cbn; repeat split; lia|].
    right. split; reflexivity.
  - destruct (proj1 (balanced_node _ _ _ _ _) B) as [Hb [Bl Br]].
    assert (Hkl : forall e, In e (elements l) -> entry_low e <> low i).
    { intros e He. apply Hkeys. cbn [elements]. apply in_or_app. now left. }
    assert (Hkr : forall e, In e (elements r) -> entry_low e <> low i).
    { intros e He. apply Hkeys. cbn [elements]. apply in_or_app.
      right. now right. }
    pose proof (Height_nonneg l) as Hl0.
    pose proof (Height_nonneg r) as Hr0.
    cbn [Insert_node]. rewrite Height_Node.
    destruct (Z.ltb_spec (low i) (low iv)) as [Hlt|Hge].
    + destruct (IHl Bl Hkl) as [l' [El [Bl' Hgrow]]].
      rewrite El. cbn [bind]. unfold UpdateMax.
      set (m1 := max_with_child (max_with_child (high iv) l') r).
      destruct Hgrow as [Hsame|[Hup Htow]].
      * exists (Node iv m1 l' r d).
        split; [apply Insert_rebalance_balanced_node; lia|].
        split; [apply balanced_node; split; [lia|split; assumption]|].
        left. rewrite Height_Node. lia.
      * destruct (Insert_rebalance_after_left iv m1 l' r d i (Height l)
                    Bl' Br Hup Hl0 Hb) as [t' [Et [Bt Ht]]].
        { destruct l as [|liv lm ll lr ld]; [now left|]. right.
          destruct l' as [|liv' lm' ll' lr' ld']; [destruct Htow|].
          destruct Htow as [-> Hside]. exact Hside. }
        exists t'. split; [exact Et|]. split; [exact Bt|].
        destruct Ht as [Ht|[Ht [-> Hside]]]; [now left|].
        right. split; [lia|]. cbn [grew_toward]. split; [reflexivity|].
        destruct (Z.ltb_spec (low i) (low iv)); [assumption|lia].
    + destruct (IHr Br Hkr) as [r' [Er [Br' Hgrow]]].
      rewrite Er. cbn [bind]. unfold UpdateMax.
      set (m1 := max_with_child (max_with_child (high iv) l) r').
      destruct Hgrow as [Hsame|[Hup Htow]].
      * exists (Node iv m1 l r' d).
        split; [apply Insert_rebalance_balanced_node; lia|].
        split; [apply balanced_node; split; [lia|split; assumption]|].
        left. rewrite Height_Node. lia.
      * destruct (Insert_rebalance_after_right iv m1 l r' d i (Height r)
                    Bl Br' Hup Hr0 Hb) as [t' [Et [Bt Ht]]].
        { destruct r as [|riv rm rl rr rd]; [now left|]. right.
          destruct r' as [|riv' rm' rl' rr' rd']; [destruct Htow|].
          destruct Htow as [-> Hside]. split; [|exact Hside].
          apply (Hkr (riv, rd)). cbn [elements]. apply in_or_app.
          right. now left. }
        exists t'. split; [exact Et|]. split; [exact Bt|].
        destruct Ht as [Ht|[Ht [-> Hside]]]; [now left|].
        right. split; [lia|]. cbn [grew_toward]. split; [reflexivity|].
        destruct (Z.ltb_spec (low i) (low iv)); [lia|assumption].
Qed.

Lemma run_inserts_balanced entries :
  forall t0,
    balanced (Root t0) ->
    NoDup (map entry_low entries) ->
    (forall e, In e entries -> entry_low e <= entry_high e) ->
    (forall e x, In e entries -> In x (elements (Root t0)) ->
                 entry_low x <> entry_low e) ->
    exists t, run (map insert_entry entries) t0 = Some t /\ balanced (Root t).
Proof.
  induction entries as [|e es IH]; intros t0 B Hnd Hvalid Hfresh.
  - exists t0. split; [reflexivity|assumption].
  - cbn [map] in Hnd. apply NoDup_cons_iff in Hnd. destruct Hnd as [Hnotin Hnd].
    destruct (Insert_node_balanced (Root t0) (fst e) (snd e) B)
      as [root [Eins [Broot _]]].
    { intros x Hx. apply (Hfresh e x); [now left|assumption]. }
    cbn [map run]. unfold insert_entry at 1. cbn [apply_op]. unfold Insert.
    pose proof (Hvalid e (or_introl eq_refl)) as Hv.
    unfold entry_low, entry_high in Hv.
    destruct (Z.gtb_spec (low (fst e)) (high (fst e))) as [Hgt|_]; [lia|].
    rewrite Eins. cbn [state_after].
    apply IH; cbn [Root]; auto.
    + intros x Hx. apply Hvalid. now right.
    + intros e' x He' Hx.
      apply (Permutation_in _ (Insert_node_perm _ _ _ _ Eins)) in Hx.
      destruct Hx as [<-|Hx].
      * intros Heq. apply Hnotin. apply in_map_iff. exists e'.
        split; [symmetry; exact Heq|assumption].
      * apply (Hfresh e' x); [now right|assumption].
Qed.

(** A balanced tree of height [h] has at least [2^(h/2) - 1] nodes. *)
Lemma balanced_Height_bound node :
  balanced node -> 2 ^ (Height node / 2) <= count_nodes node + 1.
Proof.
  induction node as [|iv m l IHl r IHr d]; intros B.
  - cbn. lia.
  - destruct (proj1 (balanced_node _ _ _ _ _) B) as [Hb [Bl Br]].
    specialize (IHl Bl). specialize (IHr Br).
    pose proof (Height_nonneg l) as Hl0.
    pose proof (Height_nonneg r) as Hr0.
    rewrite Height_Node. cbn [count_nodes].
    set (a := Height l / 2) in *. set (b := Height r / 2) in *.
    set (c := (1 + Z.max (Height l) (Height r)) / 2).
    assert (Hc : 0 <= a /\ 0 <= b /\ c <= a + 1 /\ c <= b + 1).
    { subst a b c. repeat split.
      - apply Z.div_pos; lia.
      - apply Z.div_pos; lia.
      - replace (Height l / 2 + 1) with ((Height l + 1 * 2) / 2)
          by (rewrite Z.div_add; lia).
        apply Z.div_le_mono; lia.
      - replace (Height r / 2 + 1) with ((Height r + 1 * 2) / 2)
          by (rewrite Z.div_add; lia).
        apply Z.div_le_mono; lia. }
    destruct Hc as [Ha [Hb' [Hca Hcb]]].
    assert (H1 : 2 ^ c <= 2 * 2 ^ a).
    { rewrite <- Z.pow_succ_r by assumption.
      apply Z.pow_le_mono_r; lia. }
    assert (H2 : 2 ^ c <= 2 * 2 ^ b).
    { rewrite <- Z.pow_succ_r by assumption.
      apply Z.pow_le_mono_r; lia. }
    lia.
Qed.

(** ** Removal, in detail *)

Lemma count_nodes_UpdateMax node :
  count_nodes (UpdateMax node) = count_nodes node.
Proof. destruct node; reflexivity. Qed.

(** No stored [low] equals [i.low]: the descent ends at a null pointer and
    the stored entries are what they were. *)
Lemma Remove_node_absent node i :
  (forall e, In e (elements node) -> entry_low e <> low i) ->
  exists t, Remove_node node i = Some t /\ elements t = elements node.
Proof.
  induction node as [|iv m l IHl r IHr d]; intros Hkeys.
  - exists nullptr. split; reflexivity.
  - assert (Hroot : low iv <> low i).
    { apply (Hkeys (iv, d)). cbn [elements]. apply in_or_app. right. now left. }
    cbn [Remove_node elements].
    destruct (Z.ltb_spec (low i) (low iv)) as [Hlt|Hge].
    + destruct IHl as [l' [-> El]].
      { intros e He. apply Hkeys. cbn [elements]. apply in_or_app. now left. }
      cbn [bind]. eexists. split; [reflexivity|].
      rewrite UpdateMax_elements. cbn [elements]. now rewrite El.
    + destruct (Z.gtb_spec (low i) (low iv)) as [Hgt|Hle]; [|lia].
      destruct IHr as [r' [-> Er]].
      { intros e He. apply Hkeys. cbn [elements]. apply in_or_app.
        right. now right. }
      cbn [bind]. eexists. split; [reflexivity|].
      rewrite UpdateMax_elements. cbn [elements]. now rewrite Er.
Qed.

(** In an ordered subtree that stores [e] with the [low] of [i], the
    descent finds a node with that [low] and one node goes away. *)
Lemma Remove_node_present_count node i e t :
  ordered node -> In e (elements node) -> entry_low e = low i ->
  Remove_node node i = Some t ->
  count_nodes t = count_nodes node - 1.
Proof.
  revert i e t. induction node as [|iv m l IHl r IHr d];
    intros i e t Ho He Hlow H; [destruct He|].
  destruct (proj1 (ordered_node _ _ _ _ _) Ho) as [Hol [Hor [Hc1 Hc2]]].
  cbn [elements] in He. cbn [Remove_node] in H. cbn [count_nodes].
  destruct (Z.ltb_spec (low i) (low iv)) as [Hlt|Hge].
  { inv_bind H. inv_Some. rewrite count_nodes_UpdateMax. cbn [count_nodes].
    apply in_app_or in He. destruct He as [He|[<-|He]].
    - rewrite (IHl _ _ _ Hol He Hlow E). lia.
    - unfold entry_low in Hlow. cbn [fst] in Hlow. lia.
    - specialize (Hc2 _ He). lia. }
  destruct (Z.gtb_spec (low i) (low iv)) as [Hgt|Hle].
  { inv_bind H. inv_Some. rewrite count_nodes_UpdateMax. cbn [count_nodes].
    apply in_app_or in He. destruct He as [He|[<-|He]].
    - specialize (Hc1 _ He). lia.
    - unfold entry_low in Hlow. cbn [fst] in Hlow. lia.
    - rewrite (IHr _ _ _ Hor He Hlow E). lia. }
  destruct l as [|liv lm ll lr ld].
  { inv_Some. cbn [count_nodes]. lia. }
  destruct r as [|riv rm rl rr rd].
  { inv_Some. cbn [count_nodes]. lia. }
  destruct (FindMin (Node riv rm rl rr rd)) as [|miv mm ml mr md] eqn:Emin;
    [discriminate|].
  inv_bind H. inv_Some. rewrite count_nodes_UpdateMax.
  pose proof (FindMin_In _ _ _ _ _ _ Emin) as Hmin.
  pose proof (IHr miv (miv, md) x Hor Hmin eq_refl E) as Hcount.
  change (count_nodes (Node miv m (Node liv lm ll lr ld) x md))
    with (1 + count_nodes (Node liv lm ll lr ld) + count_nodes x).
  rewrite Hcount. lia.
Qed.

Lemma NoDup_lows_node iv m l r d :
  NoDup (lows (Node iv m l r d)) ->
  NoDup (lows l) /\ NoDup (lows r) /\
  (forall e, In e (elements l) -> entry_low e <> low iv) /\
  (forall e, In e (elements r) -> entry_low e <> low iv).
Proof.
  unfold lows. cbn [elements]. rewrite map_app. cbn [map].
  change (entry_low (iv, d)) with (low iv). intros H.
  pose proof (NoDup_remove_1 _ _ _ H) as Hnd.
  pose proof (NoDup_remove_2 _ _ _ H) as Hnotin.
  split; [exact (NoDup_app_remove_r _ _ Hnd)|].
  split; [exact (NoDup_app_remove_l _ _ Hnd)|].
  split; intros e He Heq; apply Hnotin, in_or_app; [left|right];
    rewrite <- Heq; now apply in_map.
Qed.

(** With pairwise distinct stored lows, the private [Remove] takes out
    exactly the entry whose [low] is [i.low]. *)
Lemma Remove_node_exact node i e t :
  ordered node -> NoDup (lows node) ->
  In e (elements node) -> entry_low e = low i ->
  Remove_node node i = Some t ->
  Permutation (e :: elements t) (elements node).
Proof.
  revert i e t. induction node as [|iv m l IHl r IHr d];
    intros i e t Ho Hnd He Hlow H; [destruct He|].
  destruct (proj1 (ordered_node _ _ _ _ _) Ho) as [Hol [Hor [Hc1 Hc2]]].
  destruct (NoDup_lows_node _ _ _ _ _ Hnd) as [Hndl [Hndr [Hn1 Hn2]]].
  cbn [elements] in He |- *. cbn [Remove_node] in H.
  apply in_app_or in He.
  destruct (Z.ltb_spec (low i) (low iv)) as [Hlt|Hge].
  { inv_bind H. inv_Some. rewrite UpdateMax_elements. cbn [elements].
    destruct He as [He|[<-|He]].
    - apply (Permutation_app_tail _ (IHl _ _ _ Hol Hndl He Hlow E)).
    - unfold entry_low in Hlow. cbn [fst] in Hlow. lia.
    - specialize (Hc2 _ He). lia. }
  destruct (Z.gtb_spec (low i) (low iv)) as [Hgt|Hle].
  { inv_bind H. inv_Some. rewrite UpdateMax_elements. cbn [elements].
    destruct He as [He|[<-|He]].
    - specialize (Hc1 _ He). lia.
    - unfold entry_low in Hlow. cbn [fst] in Hlow. lia.
    - rewrite <- (IHr _ _ _ Hor Hndr He Hlow E).
      rewrite (Permutation_middle (elements l) ((iv, d) :: elements x) e).
      apply Permutation_app_head, perm_swap. }
  assert (Hroot : e = (iv, d)).
  { destruct He as [He|[<-|He]]; [|reflexivity|].
    - exfalso. apply (Hn1 _ He). lia.
    - exfalso. apply (Hn2 _ He). lia. }
  subst e.
  destruct l as [|liv lm ll lr ld]; [inv_Some; reflexivity|].
  destruct r as [|riv rm rl rr rd].
  { inv_Some. cbn [elements List.app]. apply Permutation_cons_append. }
  destruct (FindMin (Node riv rm rl rr rd)) as [|miv mm ml mr md] eqn:Emin;
    [discriminate|].
  inv_bind H. inv_Some. rewrite UpdateMax_elements.
  pose proof (FindMin_In _ _ _ _ _ _ Emin) as Hmin.
  pose proof (IHr miv (miv, md) x Hor Hndr Hmin eq_refl E) as Hperm.
  change (elements (Node miv m (Node liv lm ll lr ld) x md))
    with (elements (Node liv lm ll lr ld) ++ (miv, md) :: elements x).
  rewrite <- Hperm. apply Permutation_middle.
Qed.

(** ** Where an insertion lands *)

Lemma Insert_node_position t i data t' :
  ordered t -> Insert_node t i data = Some t' ->
  exists a b,
    elements t = a ++ b /\ elements t' = a ++ (i, data) :: b /\
    (forall e, In e a -> entry_low e <= low i) /\
    (forall e, In e b -> low i < entry_low e).
Proof.
  revert t'. induction t as [|iv m l IHl r IHr d]; intros t' Ho H.
  - simpl in H. inv_Some. exists [], []. repeat split; intros e [].
  - destruct (proj1 (ordered_node _ _ _ _ _) Ho) as [Hol [Hor [Hc1 Hc2]]].
    apply Insert_node_step in H.
    destruct H as [[Hlt [l' [E Et]]]|[Hle [r' [E Et]]]].
    + destruct (IHl _ Hol E) as [a [b [Ea [Eb [Ha Hb]]]]].
      exists a, (b ++ (iv, d) :: elements r). cbn [elements].
      rewrite Et, Ea, Eb, <- !app_assoc. cbn [List.app].
      repeat split; [exact Ha|].
      intros e He. apply in_app_or in He. destruct He as [He|[<-|He]].
      * now apply Hb.
      * exact Hlt.
      * specialize (Hc2 _ He). lia.
    + destruct (IHr _ Hor E) as [a [b [Ea [Eb [Ha Hb]]]]].
      exists (elements l ++ (iv, d) :: a), b. cbn [elements].
      rewrite Et, Ea, Eb, <- !app_assoc. cbn [List.app].
      repeat split; [|exact Hb].
      intros e He. apply in_app_or in He. destruct He as [He|[<-|He]].
      * specialize (Hc1 _ He). lia.
      * exact Hle.
      * now apply Ha.
Qed.

(** ** Stored intervals are valid *)

Lemma run_valid ops t :
  run ops empty_tree = Some t -> entries_valid (Root t).
Proof.
  intros H.
  apply (run_invariant (fun t => entries_valid (Root t)) (fun _ => True))
    with (ops := ops) (t := empty_tree); auto.
  - clear. intros t op t' Hv _ H.
    assert (Hins : forall t i data t',
               entries_valid (Root t) ->
               state_after (Insert t i data) = Some t' ->
               entries_valid (Root t')).
    { clear. intros t i data t' Hv H. apply Insert_state in H.
      destruct H as [[_ ->]|[Hle [root [E ->]]]]; [assumption|].
      intros e He. cbn [Root] in He.
      apply (Permutation_in _ (Insert_node_perm _ _ _ _ E)) in He.
      destruct He as [<-|He]; [exact Hle|auto]. }
    assert (Hrem : forall t i t',
               entries_valid (Root t) ->
               state_after (Remove t i) = Some t' ->
               entries_valid (Root t')).
    { clear. intros t i t' Hv H. apply Remove_state in H.
      destruct H as [->|[root [E ->]]]; [assumption|].
      intros e He. apply Hv. eapply Remove_node_incl; eauto. }
    destruct op as [i data|i|o n data|]; simpl in H.
    + eapply Hins; eauto.
    + eapply Hrem; eauto.
    + apply Update_state in H. destruct H as [t1 [H1 H2]].
      eapply Hins; [|exact H2]. eapply Hrem; eauto.
    + inv_Some. intros e [].
  - apply Forall_forall. auto.
  - intros e [].
Qed.

(** [Contains] finds every stored valid interval at its own [low]. *)
Lemma Contains_stored_low t e :
  Inv t -> In e (elements (Root t)) -> valid_interval (fst e) ->
  Contains t (entry_low e) = true.
Proof.
  intros [Ha Ho] He Hv. unfold Contains.
  rewrite Contains_Overlaps, (Overlaps_node_spec _ _ _ Ha Ho).
  apply existsb_exists. exists e. split; [assumption|].
  apply overlaps_range_true. unfold valid_interval, entry_low in *. lia.
Qed.

(** ** Helpers for the statements below *)

Lemma Overlapping_perm t lo hi :
  AugOK (Root t) ->
  Permutation (Overlapping t lo hi)
              (filter (overlapping_entry lo hi) (elements (Root t))).
Proof.
  intros Ha. unfold Overlapping. rewrite (FindOverlapping_spec _ _ _ _ Ha).
  cbn [List.app]. apply filter_perm, preorder_perm.
Qed.

Lemma Containing_Overlapping t value :
  Containing t value = Overlapping t value value.
Proof. apply FindContaining_FindOverlapping. Qed.

Lemma Remove_node_count_bounds node i t :
  Remove_node node i = Some t ->
  count_nodes node - 1 <= count_nodes t <= count_nodes node.
Proof.
  revert i t. induction node as [|iv m l IHl r IHr d]; intros i t H.
  - simpl in H. inv_Some. cbn. lia.
  - assert (Hl0 : 0 <= count_nodes l)
      by (rewrite count_nodes_elements; lia).
    assert (Hr0 : 0 <= count_nodes r)
      by (rewrite count_nodes_elements; lia).
    cbn [Remove_node] in H. cbn [count_nodes].
    destruct (low i <? low iv).
    { inv_bind H. inv_Some. rewrite count_nodes_UpdateMax. cbn [count_nodes].
      specialize (IHl _ _ E). lia. }
    destruct (low i >? low iv).
    { inv_bind H. inv_Some. rewrite count_nodes_UpdateMax. cbn [count_nodes].
      specialize (IHr _ _ E). lia. }
    destruct l as [|liv lm ll lr ld]; [inv_Some; cbn [count_nodes]; lia|].
    destruct r as [|riv rm rl rr rd]; [inv_Some; cbn [count_nodes]; lia|].
    destruct (FindMin (Node riv rm rl rr rd)) as [|miv mm ml mr md];
      [discriminate|].
    inv_bind H. inv_Some. rewrite count_nodes_UpdateMax.
    specialize (IHr _ _ E).
    change (count_nodes (Node miv m (Node liv lm ll lr ld) x md))
      with (1 + count_nodes (Node liv lm ll lr ld) + count_nodes x).
    lia.
Qed.

Lemma run_app ops1 ops2 t :
  run (ops1 ++ ops2) t =
  match run ops1 t with
  | Some t1 => run ops2 t1
  | None => None
  end.
Proof.
  revert t. induction ops1 as [|op ops1 IH]; intros t; [reflexivity|].
  cbn [List.app run]. destruct (state_after (apply_op t op)); [apply IH|reflexivity].
Qed.

Lemma Returns_state_after o t : o = Returns t -> state_after o = Some t.
Proof. now intros ->. Qed.

(** With tied lows the private [Remove] may take out another interval
    than the one its caller named: here [Remove({1, x})] drops [(1,3)] and
    [(1,5)] and leaves [(1,1)] twice. *)
Example Remove_with_tied_lows :
  option_map (fun t => elements (Root t))
    (run [ OpInsert (mkInterval 1 3) None; OpInsert (mkInterval 2 7) None;
           OpInsert (mkInterval 0 0) None; OpInsert (mkInterval 1 1) None;
           OpInsert (mkInterval 1 5) None; OpRemove (mkInterval 1 5) ]
       empty_tree)
  = Some [ (mkInterval 0 0, None); (mkInterval 1 1, None);
           (mkInterval 1 1, None); (mkInterval 2 7, None) ].
Proof. reflexivity. Qed.

(** ** Insertion, as its callers see it *)

Lemma Insert_Returns t i data t' :
  Insert t i data = Returns t' ->
  low i <= high i /\
  exists root, Insert_node (Root t) i data = Some root /\
               t' = {| Root := root; size := (size t + 1) mod SIZE_MOD |}.
Proof.
  unfold Insert. destruct (Z.gtb_spec (low i) (high i)) as [Hgt|Hle];
    [discriminate|].
  destruct (Insert_node (Root t) i data) as [root|]; [|discriminate].
  intros H. injection H as <-. split; [exact Hle|]. eauto.
Qed.

(** A call of [Insert] that returns had [low <= high], added exactly the
    new entry to the stored ones (every other entry, payload included, is
    kept), and incremented both the node count and [Size()]. *)
Theorem Insert_adds_exactly_one_entry :
  forall t i data t',
    Insert t i data = Returns t' ->
    low i <= high i /\
    Permutation (elements (Root t')) ((i, data) :: elements (Root t)) /\
    count_nodes (Root t') = count_nodes (Root t) + 1 /\
    Size t' = (Size t + 1) mod SIZE_MOD.
Proof.
  intros t i data t' H. apply Insert_Returns in H.
  destruct H as [Hle [root [E ->]]].
  split; [exact Hle|]. pose proof (Insert_node_perm _ _ _ _ E) as Hp.
  split; [exact Hp|]. split; [|reflexivity]. cbn [Root].
  rewrite !count_nodes_elements, (Permutation_length Hp).
  cbn [List.length]. lia.
Qed.

Lemma Insert_adds_exactly_one_entry_witness :
  exists t t',
    run scenario_ops empty_tree = Some t /\
    Insert t (mkInterval 7 9) (Some 42) = Returns t' /\
    Permutation (elements (Root t'))
                ((mkInterval 7 9, Some 42) :: elements (Root t)) /\
    count_nodes (Root t') = 5 /\ Size t' = 5.
Proof.
  exists scenario_tree.
  let v := eval vm_compute in
             (Insert scenario_tree (mkInterval 7 9) (Some 42)) in
  match v with Returns ?t' => exists t' end.
  split; [reflexivity|]. split; [reflexivity|].
  destruct (Insert_adds_exactly_one_entry scenario_tree (mkInterval 7 9)
              (Some 42) _ eq_refl) as [_ [Hp [Hc Hs]]].
  split; [exact Hp|]. split; [exact Hc|exact Hs].
Defined.

(** On a tree built by the public operations, a successful [Insert]
    changes the answers of [Containing] and [Overlapping] by the new entry
    alone, and [Contains] is true at every point of the new interval. *)
Theorem Insert_then_query :
  forall ops t i data t' value lo hi,
    run ops empty_tree = Some t ->
    Insert t i data = Returns t' ->
    Permutation (Containing t' value)
      ((if contains_value value i then [(i, data)] else []) ++
       Containing t value) /\
    Permutation (Overlapping t' lo hi)
      ((if overlaps_range lo hi i then [(i, data)] else []) ++
       Overlapping t lo hi) /\
    (low i <= value <= high i -> Contains t' value = true).
Proof.
  intros ops t i data t' value lo hi Hrun Hins.
  pose proof (run_Inv _ _ Hrun) as Hinv.
  pose proof (Insert_Inv _ _ _ _ Hinv (Returns_state_after _ _ Hins)) as Hinv'.
  destruct (Insert_Returns _ _ _ _ Hins) as [_ [root [E Et]]].
  assert (Hp : Permutation (elements (Root t')) ((i, data) :: elements (Root t))).
  { rewrite Et. cbn [Root]. apply (Insert_node_perm _ _ _ _ E). }
  destruct Hinv as [Ha Ho], Hinv' as [Ha' Ho'].
  assert (Hov : forall a b,
    Permutation (Overlapping t' a b)
      ((if overlaps_range a b i then [(i, data)] else []) ++
       Overlapping t a b)).
  { intros a b. rewrite (Overlapping_perm t' a b Ha').
    rewrite (Overlapping_perm t a b Ha).
    rewrite (filter_perm _ _ _ Hp). cbn [filter].
    change (overlapping_entry a b (i, data)) with (overlaps_range a b i).
    destruct (overlaps_range a b i); reflexivity. }
  split; [rewrite !Containing_Overlapping; apply Hov|].
  split; [apply Hov|].
  intros Hin. unfold Contains.
  rewrite Contains_Overlaps, (Overlaps_node_spec _ _ _ Ha' Ho').
  apply existsb_exists. exists (i, data).
  split; [apply (Permutation_in _ (Permutation_sym Hp)); now left|].
  apply overlaps_range_true. cbn [fst]. lia.
Qed.

Lemma Insert_then_query_witness :
  exists t t',
    run scenario_ops empty_tree = Some t /\
    Insert t (mkInterval 7 9) (Some 42) = Returns t' /\
    Permutation (Containing t' 8)
      ([(mkInterval 7 9, Some 42)] ++ Containing t 8) /\
    Permutation (Overlapping t' 0 2) ([] ++ Overlapping t 0 2) /\
    Contains t' 8 = true.
Proof.
  exists scenario_tree.
  let v := eval vm_compute in
             (Insert scenario_tree (mkInterval 7 9) (Some 42)) in
  match v with Returns ?t' => exists t' end.
  split; [reflexivity|]. split; [reflexivity|].
  destruct (Insert_then_query scenario_ops scenario_tree (mkInterval 7 9)
              (Some 42) _ 8 0 2 eq_refl eq_refl) as [Hc [Ho Hb]].
  split; [exact Hc|]. split; [exact Ho|]. apply Hb. cbn. lia.
Defined.

(** On a tree built by the public operations, a successful [Insert] puts
    the new entry, in the in-order listing that [ToString] prints, after
    every stored entry whose [low] is at most its own and before every
    entry with a greater [low]; the other entries keep their order. *)
Theorem Insert_lands_after_equal_lows :
  forall ops t i data t',
    run ops empty_tree = Some t ->
    Insert t i data = Returns t' ->
    exists before after,
      elements (Root t) = before ++ after /\
      elements (Root t') = before ++ (i, data) :: after /\
      (forall e, In e before -> entry_low e <= low i) /\
      (forall e, In e after -> low i < entry_low e) /\
      ToString t' =
        (render_all before ++ render (i, data) ++ render_all after)%string.
Proof.
  intros ops t i data t' Hrun Hins.
  destruct (run_Inv _ _ Hrun) as [_ Ho].
  apply Insert_Returns in Hins. destruct Hins as [_ [root [E ->]]].
  destruct (Insert_node_position _ _ _ _ Ho E) as [a [b [Ea [Eb [Ha Hb]]]]].
  exists a, b. cbn [Root]. repeat split; auto.
  unfold ToString. cbn [Root].
  rewrite ToString_node_spec, Eb, render_all_app. reflexivity.
Qed.

Lemma Insert_lands_after_equal_lows_witness :
  exists t' before after,
    run scenario_ops empty_tree = Some scenario_tree /\
    Insert scenario_tree (mkInterval 2 4) None = Returns t' /\
    elements (Root scenario_tree) = before ++ after /\
    elements (Root t') = before ++ (mkInterval 2 4, None) :: after /\
    ToString t' = "[1, 3] [2, 6] [2, 4] [5, 8] [15, 20] "%string.
Proof.
  let v := eval vm_compute in
             (Insert scenario_tree (mkInterval 2 4) None) in
  match v with Returns ?t' => exists t' end.
  destruct (Insert_lands_after_equal_lows scenario_ops scenario_tree
              (mkInterval 2 4) None _ eq_refl eq_refl)
    as [before [after [Ea [Eb _]]]].
  exists before, after.
  split; [reflexivity|]. split; [reflexivity|].
  split; [exact Ea|]. split; [exact Eb|]. reflexivity.
Defined.

(** ** Removal, as its callers see it *)

Lemma Remove_Returns t i :
  exists root,
    Remove_node (Root t) i = Some root /\
    Remove t i =
      Returns (if Contains t (low i)
               then {| Root := root; size := (size t - 1) mod SIZE_MOD |}
               else t).
Proof.
  destruct (Remove_node_total (Root t) i) as [root E]. exists root.
  split; [exact E|]. unfold Remove. rewrite E.
  destruct (Contains t (low i)); reflexivity.
Qed.

Lemma Remove_always_returns_aux t i : exists t', Remove t i = Returns t'.
Proof. destruct (Remove_Returns t i) as [root [_ ->]]. eauto. Qed.

(** [Remove] returns normally on every tree and for every argument: it
    neither throws nor dereferences a null pointer.  The tree it leaves
    stores only entries that were stored, and at most one node fewer. *)
Theorem Remove_always_returns :
  forall t i,
    exists t',
      Remove t i = Returns t' /\
      incl (elements (Root t')) (elements (Root t)) /\
      count_nodes (Root t) - 1 <= count_nodes (Root t') <= count_nodes (Root t).
Proof.
  intros t i. destruct (Remove_Returns t i) as [root [E ->]].
  eexists. split; [reflexivity|].
  destruct (Contains t (low i)); cbn [Root].
  - split; [exact (Remove_node_incl _ _ _ E)|].
    exact (Remove_node_count_bounds _ _ _ E).
  - split; [apply incl_refl|lia].
Qed.

(** When no stored interval has the [low] of [i], [Remove(i)] leaves the
    stored entries as they are, in the same order; yet [Size()] goes down
    by one whenever some stored interval covers the point [i.low]. *)
Theorem Remove_without_matching_low_keeps_entries :
  forall t i,
    (forall e, In e (elements (Root t)) -> entry_low e <> low i) ->
    exists t',
      Remove t i = Returns t' /\
      elements (Root t') = elements (Root t) /\
      Size t' = (if Contains t (low i) then (Size t - 1) mod SIZE_MOD
                 else Size t).
Proof.
  intros t i Habs. destruct (Remove_Returns t i) as [root [E ->]].
  destruct (Remove_node_absent _ _ Habs) as [root' [E' Hel]].
  rewrite E in E'. injection E' as <-.
  eexists. split; [reflexivity|].
  destruct (Contains t (low i)); cbn [Root Size size]; auto.
Qed.

Lemma Remove_without_matching_low_witness :
  exists t',
    Remove scenario_tree (mkInterval 7 7) = Returns t' /\
    elements (Root t') = elements (Root scenario_tree) /\
    Size t' = 3.
Proof.
  destruct (Remove_without_matching_low_keeps_entries scenario_tree
              (mkInterval 7 7)) as [t' [E [Hel Hs]]].
  - intros e He. cbn in He. unfold entry_low.
    repeat (destruct He as [<-|He]; [cbn; lia|]). destruct He.
  - exists t'. split; [exact E|]. split; [exact Hel|exact Hs].
Defined.

(** On a tree built by the public operations that stores an interval with
    the [low] of [i], [Remove(i)] takes out exactly one node and [Size()]
    goes down by one. *)
Theorem Remove_of_stored_low_removes_one_node :
  forall ops t i e,
    run ops empty_tree = Some t ->
    In e (elements (Root t)) -> entry_low e = low i ->
    exists t',
      Remove t i = Returns t' /\
      count_nodes (Root t') = count_nodes (Root t) - 1 /\
      Size t' = (Size t - 1) mod SIZE_MOD.
Proof.
  intros ops t i e Hrun He Hlow.
  pose proof (run_Inv _ _ Hrun) as Hinv.
  pose proof (Contains_stored_low t e Hinv He (run_valid _ _ Hrun e He)) as Hc.
  rewrite Hlow in Hc.
  destruct (Remove_Returns t i) as [root [E ->]]. rewrite Hc.
  eexists. split; [reflexivity|]. cbn [Root Size size].
  split; [|reflexivity].
  destruct Hinv as [_ Ho].
  exact (Remove_node_present_count _ _ _ _ Ho He Hlow E).
Qed.

Lemma Remove_of_stored_low_witness :
  exists t',
    Remove scenario_tree (mkInterval 5 8) = Returns t' /\
    count_nodes (Root t') = 3 /\ Size t' = 3.
Proof.
  destruct (Remove_of_stored_low_removes_one_node scenario_ops scenario_tree
              (mkInterval 5 8) (mkInterval 5 8, None) eq_refl)
    as [t' [E [Hc Hs]]].
  - cbn. tauto.
  - reflexivity.
  - exists t'. split; [exact E|]. split; [exact Hc|exact Hs].
Defined.

(** On a tree built by the public operations whose stored lows are
    pairwise distinct, [Remove(i)] takes out exactly the stored entry with
    the [low] of [i] (whatever [i.high] is) and keeps all others, and the
    answers of [Containing] lose that entry alone. *)
Theorem Remove_with_distinct_lows_removes_that_entry :
  forall ops t i e value,
    run ops empty_tree = Some t ->
    NoDup (lows (Root t)) ->
    In e (elements (Root t)) -> entry_low e = low i ->
    exists t',
      Remove t i = Returns t' /\
      Permutation (e :: elements (Root t')) (elements (Root t)) /\
      Permutation
        ((if contains_value value (fst e) then [e] else []) ++
         Containing t' value)
        (Containing t value).
Proof.
  intros ops t i e value Hrun Hnd He Hlow.
  pose proof (run_Inv _ _ Hrun) as Hinv.
  pose proof (Contains_stored_low t e Hinv He (run_valid _ _ Hrun e He)) as Hc.
  rewrite Hlow in Hc.
  destruct (Remove_Returns t i) as [root [E Erem]]. rewrite Hc in Erem.
  pose proof (Remove_Inv t i _ Hinv (Returns_state_after _ _ Erem)) as Hinv'.
  eexists. split; [exact Erem|]. cbn [Root] in *.
  destruct Hinv as [Ha Ho].
  pose proof (Remove_node_exact _ _ _ _ Ho Hnd He Hlow E) as Hp.
  split; [exact Hp|].
  rewrite !Containing_Overlapping.
  rewrite (Overlapping_perm _ value value (proj1 Hinv')).
  rewrite (Overlapping_perm t value value Ha). cbn [Root].
  rewrite <- (filter_perm _ _ _ Hp). cbn [filter].
  change (overlapping_entry value value e) with (contains_value value (fst e)).
  destruct (contains_value value (fst e)); reflexivity.
Qed.

Lemma Remove_with_distinct_lows_witness :
  exists t',
    Remove scenario_tree (mkInterval 5 99) = Returns t' /\
    Permutation ((mkInterval 5 8, None) :: elements (Root t'))
                (elements (Root scenario_tree)) /\
    Permutation ([(mkInterval 5 8, None)] ++ Containing t' 6)
                (Containing scenario_tree 6).
Proof.
  destruct (Remove_with_distinct_lows_removes_that_entry scenario_ops
              scenario_tree (mkInterval 5 99) (mkInterval 5 8, None) 6 eq_refl)
    as [t' [E [Hp Hq]]].
  - cbn. repeat (constructor; [cbn; intuition lia|]). constructor.
  - cbn. tauto.
  - reflexivity.
  - exists t'. split; [exact E|]. split; [exact Hp|exact Hq].
Defined.

(** ** Update *)

(** [Update] is [Remove] followed by [Insert], so it is not atomic: when
    the new interval has [low > high], the call throws after the removal
    has taken place, and the caller is left with the tree that
    [Remove(oldInterval)] produced. *)
Theorem Update_throws_after_removing :
  forall t oldInterval newInterval newData,
    low newInterval > high newInterval ->
    exists t1,
      Remove t oldInterval = Returns t1 /\
      Update t oldInterval newInterval newData = Throws_invalid_argument t1.
Proof.
  intros t o n data Hgt.
  destruct (Remove_always_returns_aux t o) as [t1 E].
  exists t1. split; [exact E|]. unfold Update. rewrite E. unfold Insert.
  destruct (Z.gtb_spec (low n) (high n)); [reflexivity|lia].
Qed.

Lemma Update_throws_after_removing_witness :
  exists t1,
    Remove scenario_tree (mkInterval 5 8) = Returns t1 /\
    Update scenario_tree (mkInterval 5 8) (mkInterval 9 2) None =
      Throws_invalid_argument t1 /\
    Size t1 = 3.
Proof.
  destruct (Update_throws_after_removing scenario_tree (mkInterval 5 8)
              (mkInterval 9 2) None) as [t1 [E1 E2]].
  - reflexivity.
  - exists t1. split; [exact E1|]. split; [exact E2|].
    vm_compute in E1. injection E1 as <-. reflexivity.
Defined.

(** ** What every reachable tree satisfies *)

(** Every interval stored in a tree built by the public operations has
    [low <= high]: [Insert] is the only way in and it rejects the others. *)
Theorem stored_intervals_are_valid :
  forall ops t e,
    run ops empty_tree = Some t ->
    In e (elements (Root t)) -> entry_low e <= entry_high e.
Proof. intros ops t e H He. exact (run_valid _ _ H e He). Qed.

Lemma stored_intervals_are_valid_witness :
  entry_low (mkInterval 2 6, @None Z) <= entry_high (mkInterval 2 6, @None Z).
Proof.
  apply (stored_intervals_are_valid
           (OpInsert (mkInterval 9 2) None :: scenario_ops) scenario_tree).
  - reflexivity.
  - cbn. tauto.
Defined.

(** [Containing] and [Overlapping] list their matches in pre-order of the
    tree (node, then left subtree, then right subtree), not by [low]. *)
Theorem query_results_are_in_preorder :
  forall ops t value lo hi,
    run ops empty_tree = Some t ->
    Containing t value =
      filter (fun e => contains_value value (fst e)) (preorder (Root t)) /\
    Overlapping t lo hi =
      filter (overlapping_entry lo hi) (preorder (Root t)).
Proof.
  intros ops t value lo hi H. destruct (run_Inv _ _ H) as [Ha _].
  rewrite Containing_Overlapping. unfold Overlapping.
  rewrite !(FindOverlapping_spec _ _ _ _ Ha). split; reflexivity.
Qed.

Lemma query_results_are_in_preorder_witness :
  Containing scenario_tree 6 =
    filter (fun e => contains_value 6 (fst e)) (preorder (Root scenario_tree)) /\
  Overlapping scenario_tree 0 100 =
    [ (mkInterval 2 6, None); (mkInterval 1 3, None);
      (mkInterval 5 8, None); (mkInterval 15 20, None) ].
Proof.
  destruct (query_results_are_in_preorder scenario_ops scenario_tree 6 0 100
              eq_refl) as [Hc Ho].
  split; [exact Hc|]. rewrite Ho. reflexivity.
Defined.

(** ** Insert-only trees *)

(** Inserting valid intervals with pairwise distinct lows into the empty
    tree never fails; the tree stores exactly these entries, every node
    satisfies [|height(left) - height(right)| <= 1], and the height [h] of
    a tree of [n] entries satisfies [2^(h/2) <= n + 1]. *)
Theorem inserts_with_distinct_lows_stay_balanced :
  forall entries,
    NoDup (map entry_low entries) ->
    (forall e, In e entries -> entry_low e <= entry_high e) ->
    exists t,
      run (map insert_entry entries) empty_tree = Some t /\
      Permutation (elements (Root t)) entries /\
      Forall_nodes balance_ok (Root t) /\
      2 ^ (Height (Root t) / 2) <= Z.of_nat (List.length entries) + 1.
Proof.
  intros entries Hnd Hvalid.
  assert (Hfresh : forall e x, In e entries ->
            In x (elements (Root empty_tree)) -> entry_low x <> entry_low e)
    by (intros e x _ []).
  destruct (run_inserts_balanced entries empty_tree I Hnd Hvalid Hfresh)
    as [t [Hrun Hb]].
  exists t. split; [exact Hrun|].
  pose proof (run_inserts_elements _ _ _ Hvalid Hrun) as Hp.
  cbn [empty_tree Root elements] in Hp. rewrite app_nil_r in Hp.
  split; [exact Hp|]. split; [exact Hb|].
  rewrite <- (Permutation_length Hp), <- count_nodes_elements.
  now apply balanced_Height_bound.
Qed.

Lemma inserts_with_distinct_lows_witness :
  exists t,
    run scenario_ops empty_tree = Some t /\
    Permutation (elements (Root t)) scenario_entries /\
    Forall_nodes balance_ok (Root t) /\
    2 ^ (Height (Root t) / 2) <= 5.
Proof.
  apply (inserts_with_distinct_lows_stay_balanced scenario_entries).
  - cbn. repeat (constructor; [cbn; intuition lia|]). constructor.
  - intros e He. unfold entry_low, entry_high.
    repeat (destruct He as [<-|He]; [cbn; lia|]). destruct He.
Defined.

(** After inserting [n] valid intervals into the empty tree (ties
    allowed, provided every call returns), the tree has [n] nodes and
    [Size()] is [n] modulo the range of [size_t]. *)
Theorem Size_counts_nodes_after_inserts :
  forall entries t,
    (forall e, In e entries -> entry_low e <= entry_high e) ->
    run (map insert_entry entries) empty_tree = Some t ->
    count_nodes (Root t) = Z.of_nat (List.length entries) /\
    Size t = Z.of_nat (List.length entries) mod SIZE_MOD.
Proof. exact Size_after_inserts. Qed.

Lemma Size_counts_nodes_after_inserts_witness :
  count_nodes (Root scenario_tree) = 4 /\ Size scenario_tree = 4.
Proof.
  apply (Size_counts_nodes_after_inserts scenario_entries scenario_tree).
  - intros e He. unfold entry_low, entry_high.
    repeat (destruct He as [<-|He]; [cbn; lia|]). destruct He.
  - reflexivity.
Defined.

(** ** Rotations and [FindMin] *)

(** On a subtree that satisfies the [max] invariant, [RotateRight]
    succeeds exactly when the left child is present, keeps the in-order
    sequence of entries and the invariant, and [RotateLeft] undoes it;
    likewise with the two rotations exchanged. *)
Theorem rotations_are_inverse :
  forall node,
    AugOK node ->
    (forall t, RotateRight node = Some t ->
       elements t = elements node /\ AugOK t /\ RotateLeft t = Some node) /\
    (forall t, RotateLeft node = Some t ->
       elements t = elements node /\ AugOK t /\ RotateRight t = Some node) /\
    (RotateRight node = None <->
       match node with
       | Node _ _ (Node _ _ _ _ _) _ _ => False
       | _ => True
       end) /\
    (RotateLeft node = None <->
       match node with
       | Node _ _ _ (Node _ _ _ _ _) _ => False
       | _ => True
       end).
Proof.
  intros node Ha. split; [|split; [|split]].
  - intros t H. split; [exact (RotateRight_elements _ _ H)|].
    destruct node as [|iv m [|liv lm ll lr ld] r d]; try discriminate.
    destruct (proj1 (AugOK_node _ _ _ _ _) Ha) as [Hm [Hl Hr]].
    split; [exact (RotateRight_AugOK _ _ _ _ _ _ Hl Hr H)|].
    destruct (proj1 (AugOK_node _ _ _ _ _) Hl) as [Hlm _].
    cbn [RotateRight] in H. injection H as <-.
    unfold UpdateMax. cbn [RotateLeft]. unfold UpdateMax.
    rewrite <- Hlm, <- Hm. reflexivity.
  - intros t H. split; [exact (RotateLeft_elements _ _ H)|].
    destruct node as [|iv m l [|riv rm rl rr rd] d]; try discriminate.
    destruct (proj1 (AugOK_node _ _ _ _ _) Ha) as [Hm [Hl Hr]].
    split; [exact (RotateLeft_AugOK _ _ _ _ _ _ Hl Hr H)|].
    destruct (proj1 (AugOK_node _ _ _ _ _) Hr) as [Hrm _].
    cbn [RotateLeft] in H. injection H as <-.
    unfold UpdateMax. cbn [RotateRight]. unfold UpdateMax.
    rewrite <- Hrm, <- Hm. reflexivity.
  - destruct node as [|iv m [|liv lm ll lr ld] r d]; cbn; split;
      intros; try tauto; try discriminate.
  - destruct node as [|iv m l [|riv rm rl rr rd] d]; cbn; split;
      intros; try tauto; try discriminate.
Qed.

Lemma rotations_are_inverse_witness :
  exists t,
    RotateRight (Root scenario_tree) = Some t /\
    elements t = elements (Root scenario_tree) /\
    RotateLeft t = Some (Root scenario_tree).
Proof.
  assert (Ha : AugOK (Root scenario_tree)).
  { unfold AugOK. cbn. repeat split. }
  destruct (rotations_are_inverse (Root scenario_tree) Ha) as [HR _].
  eexists. split; [reflexivity|].
  destruct (HR _ eq_refl) as [He [_ Hback]]. split; [exact He|exact Hback].
Defined.

(** On a non-empty subtree [FindMin] returns the node without left child
    that comes first in in-order; when the subtree is ordered, no stored
    [low] is below the one of that node. *)
Theorem FindMin_is_first_in_order :
  forall node,
    node <> nullptr ->
    exists miv mm mr md rest,
      FindMin node = Node miv mm nullptr mr md /\
      elements node = (miv, md) :: rest /\
      (ordered node -> forall e, In e (elements node) -> low miv <= entry_low e).
Proof.
  induction node as [|iv m l IHl r _ d]; intros Hne; [congruence|].
  destruct l as [|liv lm ll lr ld].
  - exists iv, m, r, d, (elements r). split; [reflexivity|].
    split; [reflexivity|].
    intros Ho e He. exact (FindMin_least _ _ _ _ _ _ Ho eq_refl e He).
  - destruct IHl as [miv [mm [mr [md [rest [E [Hel _]]]]]]]; [discriminate|].
    exists miv, mm, mr, md, (rest ++ (iv, d) :: elements r).
    change (FindMin (Node iv m (Node liv lm ll lr ld) r d))
      with (FindMin (Node liv lm ll lr ld)).
    split; [exact E|].
    change (elements (Node iv m (Node liv lm ll lr ld) r d))
      with (elements (Node liv lm ll lr ld) ++ (iv, d) :: elements r).
    split; [now rewrite Hel|].
    intros Ho e He.
    assert (E' : FindMin (Node iv m (Node liv lm ll lr ld) r d)
                 = Node miv mm nullptr mr md) by exact E.
    exact (FindMin_least _ _ _ _ _ _ Ho E' e He).
Qed.

Lemma FindMin_is_first_in_order_witness :
  exists mm mr rest,
    FindMin (Root scenario_tree) = Node (mkInterval 1 3) mm nullptr mr None /\
    elements (Root scenario_tree) = (mkInterval 1 3, None) :: rest.
Proof.
  destruct (FindMin_is_first_in_order (Root scenario_tree))
    as [miv [mm [mr [md [rest [E [Hel _]]]]]]].
  - discriminate.
  - vm_compute in E. injection E as <- <- <- <-.
    vm_compute in Hel. injection Hel as <-.
    eexists. eexists. eexists. split; reflexivity.
Defined.

(** ** The order operators of [Interval] *)

(** [a < b] means that [a] ends before [b] starts and [a > b] is the
    converse relation; two intervals are comparable by neither exactly
    when they overlap; and on intervals with [low <= high] the relation
    [<] is irreflexive and transitive. *)
Theorem Interval_order_operators :
  forall a b c,
    Interval_gt a b = Interval_lt b a /\
    overlaps_range (low b) (high b) a =
      negb (Interval_lt a b) && negb (Interval_gt a b) /\
    (Interval_lt b b = false <-> valid_interval b) /\
    (valid_interval b ->
     Interval_lt a b = true -> Interval_lt b c = true ->
     Interval_lt a c = true).
Proof.
  intros a b c. unfold valid_interval.
  unfold Interval_gt, Interval_lt, overlaps_range.
  split; [|split; [|split]].
  - destruct (Z.gtb_spec (low a) (high b)), (Z.ltb_spec (high b) (low a));
      try reflexivity; lia.
  - destruct (Z.leb_spec (low a) (high b)), (Z.geb_spec (high a) (low b)),
      (Z.ltb_spec (high a) (low b)), (Z.gtb_spec (low a) (high b));
      try reflexivity; lia.
  - apply Z.ltb_ge.
  - intros Hb. rewrite !Z.ltb_lt. lia.
Qed.

Lemma Interval_order_operators_witness :
  Interval_lt (mkInterval 1 3) (mkInterval 5 8) = true /\
  Interval_gt (mkInterval 5 8) (mkInterval 1 3) = true /\
  Interval_lt (mkInterval 5 8) (mkInterval 5 8) = false /\
  Interval_lt (mkInterval 1 3) (mkInterval 15 20) = true.
Proof.
  destruct (Interval_order_operators (mkInterval 1 3) (mkInterval 5 8)
              (mkInterval 15 20)) as [_ [_ [Hirr Htrans]]].
  assert (Hb : valid_interval (mkInterval 5 8))
    by (unfold valid_interval; cbn; lia).
  split; [reflexivity|]. split; [reflexivity|].
  split; [exact (proj2 Hirr Hb)|].
  apply (Htrans Hb); reflexivity.
Defined.

(** ** Clear *)

(** [Clear] brings any tree back to the state of a freshly constructed
    one: whatever was done before it, the calls that follow behave as on
    the empty tree. *)
Theorem Clear_restarts_from_the_empty_tree :
  forall ops1 ops2 t1,
    run ops1 empty_tree = Some t1 ->
    run (ops1 ++ OpClear :: ops2) empty_tree = run ops2 empty_tree /\
    IsEmpty (Clear t1) = true /\ Size (Clear t1) = 0.
Proof.
  intros ops1 ops2 t1 H. rewrite run_app, H. split; [reflexivity|].
  split; reflexivity.
Qed.

Lemma Clear_restarts_witness :
  run (scenario_ops ++ OpClear :: [OpInsert (mkInterval 3 4) None]) empty_tree
    = run [OpInsert (mkInterval 3 4) None] empty_tree /\
  IsEmpty (Clear scenario_tree) = true /\ Size (Clear scenario_tree) = 0.
Proof.
  apply (Clear_restarts_from_the_empty_tree scenario_ops
           [OpInsert (mkInterval 3 4) None] scenario_tree).
  reflexivity.
Defined.

(** ** One insertion into a balanced tree *)

(** On any tree whose nodes all satisfy the balance condition, [Insert]
    of a valid interval whose [low] is not stored yet returns (no rotation
    meets a missing child), leaves every node balanced, and makes the tree
    at most one level higher. *)
Theorem Insert_of_fresh_low_keeps_balance :
  forall t i data,
    Forall_nodes balance_ok (Root t) ->
    low i <= high i ->
    (forall e, In e (elements (Root t)) -> entry_low e <> low i) ->
    exists t',
      Insert t i data = Returns t' /\
      Forall_nodes balance_ok (Root t') /\
      Height (Root t) <= Height (Root t') <= Height (Root t) + 1.
Proof.
  intros t i data Hb Hle Hfresh.
  destruct (Insert_node_balanced (Root t) i data Hb Hfresh)
    as [root [E [Hb' Hh]]].
  exists {| Root := root; size := (size t + 1) mod SIZE_MOD |}.
  split.
  - unfold Insert. destruct (Z.gtb_spec (low i) (high i)); [lia|].
    now rewrite E.
  - split; [exact Hb'|]. cbn [Root]. destruct Hh as [->|[-> _]]; lia.
Qed.

Lemma Insert_of_fresh_low_witness :
  exists t',
    Insert scenario_tree (mkInterval 7 9) None = Returns t' /\
    Forall_nodes balance_ok (Root t') /\
    Height (Root scenario_tree) <= Height (Root t')
      <= Height (Root scenario_tree) + 1.
Proof.
  apply (Insert_of_fresh_low_keeps_balance scenario_tree (mkInterval 7 9) None).
  - cbn. unfold balance_ok. cbn. repeat split; lia.
  - cbn. lia.
  - intros e He. cbn in He. unfold entry_low.
    repeat (destruct He as [<-|He]; [cbn; lia|]). destruct He.
Defined.

(** ** Point queries and range queries *)

(** On every tree, also one that breaks the invariants, the point queries
    are the range queries on the degenerate range: [Containing(v)] is
    [Overlapping(v, v)] and [Contains(v)] is [Overlaps(v, v)]. *)
Theorem point_queries_are_degenerate_range_queries :
  forall t value,
    Containing t value = Overlapping t value value /\
    Contains t value = Overlaps t value value.
Proof.
  intros t value. split.
  - apply FindContaining_FindOverlapping.
  - apply Contains_Overlaps.
Qed.
